(** * Arena: a fixed-capacity bump allocator (arena_allocator.h)

    A shallow embedding of [template <size_t Capacity> class Arena] and the
    properties of its allocation core, its reset and its memory map.

    Platform model (LP64): [size_t] and [uintptr_t] are 64-bit unsigned
    integers, represented as [Z] with the wrap-around written out by [wrap];
    [alignof(max_align_t)] is 16.  The arena is built either with or without
    [-DDEBUG]; the flag is the parameter [DEBUG] of every operation. *)

From Stdlib Require Import ZArith Lia.
From stdpp Require Import base list strings pretty.

Local Open Scope Z_scope.

(** ** Machine integers *)

(** Arithmetic on [size_t] / [uintptr_t] is modulo [2^64]. *)
Definition wrap (x : Z) : Z := x mod 2 ^ 64.

(** The largest size of an object (and of an array type) on the platform. *)
Definition PTRDIFF_MAX : Z := 2 ^ 63 - 1.

(** [alignof(max_align_t)], the alignment of [m_buffer]. *)
Definition MAX_ALIGN : Z := 16.

(** ** Data *)

(** What [allocate<T>] reads off its template argument: [sizeof(T)],
    [alignof(T)] and [typeid(T).name()]. *)
Record TypeInfo := {
  sizeof : Z;
  alignof : Z;
  name : string
}.

(** [struct AllocationInfo], the element type of the debug ledger. *)
Record AllocationInfo := {
  address : Z;
  size : Z;
  type_name : string
}.

(** The data members of [Arena].  [m_allocations] exists only in a [DEBUG]
    build; in the other build no operation reads or writes it. *)
Record Arena := {
  m_buffer : list Byte.byte;
  m_used : Z;
  m_allocations : list AllocationInfo
}.

(** A call made on the arena by its user. *)
Inductive Call :=
| Allocate (T : TypeInfo) (obj : list Byte.byte)
| Reset.

(** What the caller observes of a call: the pointer [allocate] returned, that
    it returned [nullptr], or that [reset] came back. *)
Inductive Event :=
| Allocated (T : TypeInfo) (p : Z)
| Failed (T : TypeInfo)
| Rewound.

(** ** Operations *)

Section Operations.
Variable DEBUG : bool.
Variable Capacity : Z.
(** [reinterpret_cast<uintptr_t>(m_buffer)]: where the arena object lives. *)
Variable buffer_base : Z.

(** [Arena() noexcept : m_used(0)].  The buffer is left uninitialised, so
    its first contents [mem] are whatever the storage held. *)
Definition Arena_new (mem : list Byte.byte) : Arena :=
  {| m_buffer := mem; m_used := 0; m_allocations := [] |}.

(** [(alignment - (cur_addr % alignment)) % alignment] *)
Definition padding_for (alignment cur_addr : Z) : Z :=
  wrap (alignment - cur_addr mod alignment) mod alignment.

(** [T* allocate(Args&&... args)].  The constructor call
    [new (memory) T(args...)] is represented by the object representation
    [obj] it leaves in the storage: at most [sizeof(T)] bytes, written from
    [memory] on.  [None] is [nullptr]. *)
Definition allocate (T : TypeInfo) (obj : list Byte.byte) (a : Arena)
  : option Z * Arena :=
  let alignment := alignof T in
  let cur_addr := wrap (buffer_base + m_used a) in
  let padding := padding_for alignment cur_addr in
  if Capacity <? wrap (wrap (m_used a + padding) + sizeof T) then (None, a)
  else
    let used1 := wrap (m_used a + padding) in
    let memory := wrap (buffer_base + used1) in
    let used2 := wrap (used1 + sizeof T) in
    (Some memory,
     {| m_buffer :=
          list_inserts (Z.to_nat used1) (take (Z.to_nat (sizeof T)) obj)
                       (m_buffer a);
        m_used := used2;
        m_allocations :=
          if DEBUG
          then m_allocations a ++
               [{| address := memory; size := sizeof T; type_name := name T |}]
          else m_allocations a |}).

(** [void reset() noexcept { m_used = 0ULL; }] *)
Definition reset (a : Arena) : Arena :=
  {| m_buffer := m_buffer a; m_used := 0; m_allocations := m_allocations a |}.

(** *** The memory map *)

(** The line feed written as ["\n"] in the source. *)
Definition nl : string := String (Ascii.ascii_of_nat 10) EmptyString.

Fixpoint spaces (n : nat) : string :=
  match n with
  | O => EmptyString
  | S n' => String Ascii.Space (spaces n')
  end.

(** [std::left << std::setw(w) << s]: fill on the right up to width [w];
    a longer [s] is written whole. *)
Definition setw (w : nat) (s : string) : string :=
  s +:+ spaces (w - String.length s).

(** [std::to_string] and [operator<<] on an unsigned integer: decimal. *)
Definition to_string (z : Z) : string := pretty z.

(** One row of the table: the three [setw] columns and the line feed. *)
Definition map_row (offset : Z) (label : string) (sz : Z) : string :=
  setw 18 ("+ " +:+ to_string offset) +:+ setw 25 label +:+
  setw 10 (to_string sz) +:+ nl.

Definition rule : string :=
  "--------------------------------------------------".

Definition map_header (a : Arena) : string :=
  "--- Arena Memory Map (compile with -DDEBUG) ---" +:+ nl +:+
  "Capacity: " +:+ to_string Capacity +:+ " bytes | Used: " +:+
  to_string (m_used a) +:+ " bytes" +:+ nl +:+ nl +:+
  setw 18 "Address (Offset)" +:+ setw 25 "Type" +:+ setw 10 "Size" +:+ nl +:+
  rule +:+ nl.

(** The body of [for (const AllocationInfo& alloc : m_allocations)], with
    the loop-carried [last_offset]. *)
Fixpoint display_allocations (allocs : list AllocationInfo) (last_offset : Z)
  : string :=
  match allocs with
  | [] => EmptyString
  | alloc :: rest =>
      let current_addr := address alloc in
      let buffer_start_addr := buffer_base in
      let current_offset := wrap (current_addr - buffer_start_addr) in
      (if last_offset <? current_offset
       then map_row last_offset "(Padding)" (wrap (current_offset - last_offset))
       else EmptyString) +:+
      map_row current_offset (type_name alloc) (size alloc) +:+
      display_allocations rest (wrap (current_offset + size alloc))
  end.

(** [void display_map() const noexcept]: the text sent to [std::cout]. *)
Definition display_map (a : Arena) : string :=
  map_header a +:+
  (if DEBUG then display_allocations (m_allocations a) 0 else EmptyString) +:+
  (if m_used a <? Capacity
   then map_row (m_used a) "(Free Space)" (wrap (Capacity - m_used a))
   else EmptyString) +:+
  rule +:+ nl +:+ nl.

(** *** Sequences of calls *)

Definition call (c : Call) (a : Arena) : Event * Arena :=
  match c with
  | Allocate T obj =>
      match allocate T obj a with
      | (Some p, a') => (Allocated T p, a')
      | (None, a') => (Failed T, a')
      end
  | Reset => (Rewound, reset a)
  end.

Fixpoint run (cs : list Call) (a : Arena) : list Event * Arena :=
  match cs with
  | [] => ([], a)
  | c :: cs' =>
      let (e, a1) := call c a in
      let (es, a2) := run cs' a1 in
      (e :: es, a2)
  end.

End Operations.

(** ** Vocabulary of the properties *)

(** Three types of the LP64 platform, with their Itanium-ABI [typeid] names:
    [int], [double] and [char[50]]. *)
Definition int_info : TypeInfo := {| sizeof := 4; alignof := 4; name := "i" |}.
Definition double_info : TypeInfo := {| sizeof := 8; alignof := 8; name := "d" |}.
Definition char50_info : TypeInfo :=
  {| sizeof := 50; alignof := 1; name := "A50_c" |}.

(** [char], for sequences of descending alignment. *)
Definition char_info : TypeInfo := {| sizeof := 1; alignof := 1; name := "c" |}.

(** [n] bytes of storage, zeroed. *)
Definition zeros (n : nat) : list Byte.byte := replicate n Byte.x00.

(** The calls of the scenario of capacity 64. *)
Definition scenario_calls : list Call :=
  [Allocate int_info (zeros 4); Allocate double_info (zeros 8);
   Allocate char50_info (zeros 50); Reset; Allocate int_info (zeros 4)].

(** A type the arena can be asked for: positive alignment and size, as every
    C++ object type has, and small enough next to the capacity for
    [m_used + padding + sizeof(T)] to be representable in [size_t]. *)
Definition type_ok (Capacity : Z) (T : TypeInfo) : Prop :=
  0 < alignof T /\ 0 < sizeof T /\ Capacity + alignof T + sizeof T <= 2 ^ 64.

Definition call_ok (Capacity : Z) (c : Call) : Prop :=
  match c with
  | Allocate T _ => type_ok Capacity T
  | Reset => True
  end.

Definition is_allocate (c : Call) : Prop :=
  match c with
  | Allocate _ _ => True
  | Reset => False
  end.

Definition is_Allocated (e : Event) : Prop :=
  match e with
  | Allocated _ _ => True
  | _ => False
  end.

(** The buffer lies in the 64-bit address space, its one-past-the-end
    address included. *)
Definition in_address_space (Capacity buffer_base : Z) : Prop :=
  0 <= buffer_base /\ buffer_base + Capacity < 2 ^ 64.

(** The invariant of the data model on the used offset. *)
Definition used_ok (Capacity : Z) (a : Arena) : Prop :=
  0 <= m_used a <= Capacity.

(** Alignments are powers of two. *)
Definition is_pow2 (n : Z) : Prop := exists k, 0 <= k /\ n = 2 ^ k.

(** A byte region [[offset, offset + len)] of the buffer. *)
Definition region : Type := Z * Z.

Definition within (Capacity : Z) (r : region) : Prop :=
  0 <= r.1 /\ r.1 + r.2 <= Capacity.

Definition disjoint_regions (r1 r2 : region) : Prop :=
  r1.1 + r1.2 <= r2.1 \/ r2.1 + r2.2 <= r1.1.

(** The regions handed out in the current generation: those of the
    successful allocations since the last reset, oldest first. *)
Fixpoint generation (buffer_base : Z) (es : list Event) (live : list region)
  : list region :=
  match es with
  | [] => live
  | Allocated T p :: es' =>
      generation buffer_base es' (live ++ [(p - buffer_base, sizeof T)])
  | Failed _ :: es' => generation buffer_base es' live
  | Rewound :: es' => generation buffer_base es' []
  end.

(** Regions laid out one after another below [used]: each starts at or
    after the end of every earlier one. *)
Definition packed (live : list region) (used : Z) : Prop :=
  0 <= used /\
  (forall (i : nat) (r : region),
      live !! i = Some r -> 0 <= r.1 /\ r.1 + r.2 <= used) /\
  (forall (i j : nat) (r1 r2 : region),
      (i < j)%nat -> live !! i = Some r1 -> live !! j = Some r2 ->
      r1.1 + r1.2 <= r2.1).

(** *** The memory map as the specification describes it *)

(** A line of the map: a padding gap, a recorded allocation, or the free
    space at the end. *)
Inductive Region :=
| Padding (offset len : Z)
| Object (offset : Z) (tag : string) (len : Z)
| FreeSpace (offset len : Z).

Definition region_offset (r : Region) : Z :=
  match r with
  | Padding o _ | Object o _ _ | FreeSpace o _ => o
  end.

Definition region_len (r : Region) : Z :=
  match r with
  | Padding _ l | Object _ _ l | FreeSpace _ l => l
  end.

Definition is_free (r : Region) : Prop :=
  match r with
  | FreeSpace _ _ => True
  | _ => False
  end.

Definition render_region (r : Region) : string :=
  match r with
  | Padding o l => map_row o "(Padding)" l
  | Object o t l => map_row o t l
  | FreeSpace o l => map_row o "(Free Space)" l
  end.

Fixpoint render_regions (rs : list Region) : string :=
  match rs with
  | [] => EmptyString
  | r :: rs' => render_region r +:+ render_regions rs'
  end.

(** The recorded allocations in ledger order, each preceded by a padding gap
    when the previous recorded allocation ends below its start; the gap is
    the difference of the two.  Offsets are integers here. *)
Fixpoint recorded_regions (buffer_base last_end : Z) (ledger : list AllocationInfo)
  : list Region :=
  match ledger with
  | [] => []
  | rec :: rest =>
      let start := address rec - buffer_base in
      (if last_end <? start then [Padding last_end (start - last_end)] else []) ++
      Object start (type_name rec) (size rec) ::
      recorded_regions buffer_base (start + size rec) rest
  end.

(** The free space [[used, capacity)], when there is any. *)
Definition free_region (Capacity : Z) (a : Arena) : list Region :=
  if m_used a <? Capacity
  then [FreeSpace (m_used a) (Capacity - m_used a)]
  else [].

Definition memory_map_regions (Capacity buffer_base : Z) (a : Arena) : list Region :=
  recorded_regions buffer_base 0 (m_allocations a) ++ free_region Capacity a.

(** The recorded allocations among the lines of a map. *)
Fixpoint objects (rs : list Region) : list (Z * string * Z) :=
  match rs with
  | [] => []
  | Object o t l :: rs' => (o, t, l) :: objects rs'
  | _ :: rs' => objects rs'
  end.

(** Lines in address order that cover [[from, to)] without gap or overlap:
    each non-empty, each starting where the one before it ends. *)
Fixpoint tiles (from : Z) (rs : list Region) (to : Z) : Prop :=
  match rs with
  | [] => from = to
  | r :: rs' =>
      region_offset r = from /\ 0 < region_len r /\
      tiles (from + region_len r) rs' to
  end.

(** The ledger of one generation: its records lie one after another from
    [from] on, none empty, the last one ending at [to]. *)
Fixpoint ledger_chain (buffer_base from : Z) (ledger : list AllocationInfo) (to : Z)
  : Prop :=
  match ledger with
  | [] => from = to
  | rec :: rest =>
      from <= address rec - buffer_base /\ 0 < size rec /\
      ledger_chain buffer_base (address rec - buffer_base + size rec) rest to
  end.

(** The text [s] has the text [t] somewhere in it. *)
Definition occurs_in (t s : string) : Prop :=
  exists pre post : string, s = pre +:+ t +:+ post.

(** *** Reading a run *)

(** The record [allocate] pushes on the ledger of a [DEBUG] build for each
    pointer it returns. *)
Definition records_of (es : list Event) : list AllocationInfo :=
  flat_map
    (fun e =>
       match e with
       | Allocated T p => [{| address := p; size := sizeof T; type_name := name T |}]
       | _ => []
       end) es.

(** The bytes of a list of regions, added up. *)
Definition total_len (rs : list region) : Z :=
  foldr (fun r acc => r.2 + acc) 0 rs.

(** Two calls that ask for the same thing: the same type, whatever the
    constructor writes, or a reset both. *)
Definition same_request (c1 c2 : Call) : Prop :=
  match c1, c2 with
  | Allocate T1 _, Allocate T2 _ => T1 = T2
  | Reset, Reset => True
  | _, _ => False
  end.

(** The sizes of a list of types, added up. *)
Definition total_size (Ts : list TypeInfo) : Z :=
  foldr (fun T acc => sizeof T + acc) 0 Ts.

(** Types in an order of descending alignment: the alignment of each divides
    [alignment] and the alignment of the one before it, and divides its own
    size. *)
Fixpoint descending_alignment (alignment : Z) (Ts : list TypeInfo) : Prop :=
  match Ts with
  | [] => True
  | T :: Ts' =>
      (alignof T | alignment) /\ (alignof T | sizeof T) /\
      descending_alignment (alignof T) Ts'
  end.

(** The padding the specification prescribes, over the integers. *)
Definition spec_padding (alignment candidate_address : Z) : Z :=
  (alignment - candidate_address mod alignment) mod alignment.

(** The cumulative padded size of a sequence of requests placed one after
    another from offset [used] on, with no capacity limit. *)
Fixpoint cumulative_padded_size (buffer_base used : Z) (Ts : list TypeInfo) : Z :=
  match Ts with
  | [] => used
  | T :: Ts' =>
      cumulative_padded_size buffer_base
        (used + spec_padding (alignof T) (buffer_base + used) + sizeof T) Ts'
  end.

Definition requested (c : Call) : list TypeInfo :=
  match c with
  | Allocate T _ => [T]
  | Reset => []
  end.

(** * Properties *)

(** ** Arithmetic of [size_t] *)

Lemma wrap_small (x : Z) : 0 <= x < 2 ^ 64 -> wrap x = x.
Proof. intros H. unfold wrap. now apply Z.mod_small. Qed.

Lemma wrap_range (x : Z) : 0 <= wrap x < 2 ^ 64.
Proof. unfold wrap. apply Z.mod_pos_bound. lia. Qed.

Lemma spec_padding_range (alignment addr : Z) :
  0 < alignment -> 0 <= spec_padding alignment addr < alignment.
Proof. intros H. unfold spec_padding. now apply Z.mod_pos_bound. Qed.

(** The padding moves the candidate address onto the next multiple of the
    alignment. *)
Lemma spec_padding_aligns (alignment addr : Z) :
  0 < alignment -> (addr + spec_padding alignment addr) mod alignment = 0.
Proof.
  intros H. unfold spec_padding.
  rewrite Z.add_mod_idemp_r by lia.
  replace (addr + (alignment - addr mod alignment))
    with (addr - addr mod alignment + 1 * alignment) by lia.
  rewrite Z.mod_add by lia.
  rewrite Zminus_mod_idemp_r, Z.sub_diag. now apply Z.mod_0_l; lia.
Qed.

(** It is the least such shift. *)
Lemma spec_padding_minimal (alignment addr d : Z) :
  0 < alignment -> 0 <= d -> (addr + d) mod alignment = 0 ->
  spec_padding alignment addr <= d.
Proof.
  intros Ha Hd Hal.
  pose proof (spec_padding_range alignment addr Ha) as Hr.
  pose proof (spec_padding_aligns alignment addr Ha) as Hp.
  destruct (Z_lt_le_dec d (spec_padding alignment addr)) as [Hlt|]; [|lia].
  exfalso.
  apply Z.mod_divide in Hal; [|lia]. apply Z.mod_divide in Hp; [|lia].
  destruct Hal as [q Hq], Hp as [q' Hq'].
  assert (Hdiff : spec_padding alignment addr - d = (q' - q) * alignment) by lia.
  assert (0 < (q' - q) * alignment < alignment) by lia.
  assert (0 < q' - q) by nia. nia.
Qed.

Lemma spec_padding_zero (alignment addr : Z) :
  0 < alignment -> addr mod alignment = 0 -> spec_padding alignment addr = 0.
Proof.
  intros Ha H0. unfold spec_padding. rewrite H0, Z.sub_0_r.
  now apply Z.mod_same; lia.
Qed.

(** A base address that is a multiple of the alignment does not count. *)
Lemma spec_padding_shift (alignment base used : Z) :
  0 < alignment -> (alignment | base) ->
  spec_padding alignment (base + used) = spec_padding alignment used.
Proof.
  intros Ha [q ->]. unfold spec_padding.
  now rewrite Z.add_comm, Z.mod_add by lia.
Qed.

(** On addresses of the buffer the source's [size_t] expression is the
    specification's padding. *)
Lemma padding_for_spec (alignment addr : Z) :
  0 < alignment < 2 ^ 64 -> 0 <= addr < 2 ^ 64 ->
  padding_for alignment (wrap addr) = spec_padding alignment addr.
Proof.
  intros Ha Haddr. unfold padding_for, spec_padding.
  rewrite (wrap_small addr) by lia.
  pose proof (Z.mod_pos_bound addr alignment ltac:(lia)).
  now rewrite wrap_small by lia.
Qed.

(** The side condition of [type_ok] is no restriction on the platform: an
    object type has a positive size of at most [PTRDIFF_MAX] that is a
    multiple of its alignment, a power of two, and the buffer is an array of
    at most [PTRDIFF_MAX] bytes. *)
Lemma platform_type_ok (Capacity : Z) (T : TypeInfo) :
  Capacity <= PTRDIFF_MAX ->
  is_pow2 (alignof T) ->
  (alignof T | sizeof T) ->
  0 < sizeof T <= PTRDIFF_MAX ->
  type_ok Capacity T.
Proof.
  unfold PTRDIFF_MAX. intros Hcap (k & Hk & Hal) [m Hm] [Hs0 Hs1].
  assert (Hpos : 0 < 2 ^ k) by (apply Z.pow_pos_nonneg; lia).
  rewrite Hal in Hm. unfold type_ok. rewrite Hal, Hm.
  assert (Hm1 : 1 <= m) by nia.
  assert (Hk63 : k < 63).
  { destruct (Z_lt_le_dec k 63) as [|Hge]; [assumption|].
    pose proof (Z.pow_le_mono_r 2 63 k ltac:(lia) Hge). nia. }
  assert (Hsplit : 2 ^ 63 = 2 ^ (63 - k) * 2 ^ k).
  { rewrite <- Z.pow_add_r by lia. f_equal. lia. }
  assert (Hlt : m < 2 ^ (63 - k)) by nia.
  assert (Hsum : 2 ^ k + m * 2 ^ k <= 2 ^ 63) by nia.
  change (2 ^ 64) with (2 ^ 63 + 2 ^ 63).
  repeat split; lia.
Qed.

(** ** The allocation core *)

Section Core.
Variable DEBUG : bool.
Variables Capacity buffer_base : Z.

Local Abbreviation allocate := (allocate DEBUG Capacity buffer_base).
Local Abbreviation call := (call DEBUG Capacity buffer_base).
Local Abbreviation run := (run DEBUG Capacity buffer_base).

(** On a well-placed arena and a well-formed type no [size_t] operation of
    [allocate] wraps: the function is the specification's algorithm. *)
Lemma allocate_exact (T : TypeInfo) (obj : list Byte.byte) (a : Arena) :
  in_address_space Capacity buffer_base ->
  used_ok Capacity a ->
  type_ok Capacity T ->
  let padding := spec_padding (alignof T) (buffer_base + m_used a) in
  allocate T obj a =
    if Capacity <? m_used a + padding + sizeof T then (None, a)
    else
      (Some (buffer_base + (m_used a + padding)),
       {| m_buffer :=
            list_inserts (Z.to_nat (m_used a + padding))
                         (take (Z.to_nat (sizeof T)) obj) (m_buffer a);
          m_used := m_used a + padding + sizeof T;
          m_allocations :=
            if DEBUG
            then m_allocations a ++
                 [{| address := buffer_base + (m_used a + padding);
                     size := sizeof T; type_name := name T |}]
            else m_allocations a |}).
Proof.
  intros [Hb0 Hb1] [Hu0 Hu1] (Hal & Hsz & Hfit) padding.
  pose proof (spec_padding_range (alignof T) (buffer_base + m_used a) Hal) as Hp.
  fold padding in Hp.
  unfold allocate.
  rewrite padding_for_spec by lia. fold padding.
  rewrite (wrap_small (m_used a + padding)) by lia.
  rewrite (wrap_small (m_used a + padding + sizeof T)) by lia.
  destruct (Capacity <? m_used a + padding + sizeof T) eqn:Hchk; [reflexivity|].
  apply Z.ltb_ge in Hchk.
  now rewrite (wrap_small (buffer_base + (m_used a + padding))) by lia.
Qed.

(** [allocate] returns [nullptr] exactly when its capacity check fires, and
    then hands the arena back as it was. *)
Lemma allocate_None_iff (T : TypeInfo) (obj : list Byte.byte) (a : Arena) :
  (allocate T obj a).1 = None <->
  Capacity <
    wrap (wrap (m_used a + padding_for (alignof T) (wrap (buffer_base + m_used a)))
          + sizeof T).
Proof.
  unfold allocate.
  destruct (Capacity <? _) eqn:Hchk; simpl.
  - apply Z.ltb_lt in Hchk. tauto.
  - apply Z.ltb_ge in Hchk. split; [discriminate | lia].
Qed.

Lemma allocate_None_same (T : TypeInfo) (obj : list Byte.byte) (a : Arena) :
  (allocate T obj a).1 = None -> (allocate T obj a).2 = a.
Proof.
  unfold allocate.
  destruct (Capacity <? _); simpl; [reflexivity | discriminate].
Qed.

Lemma allocate_fits (T : TypeInfo) (obj : list Byte.byte) (a : Arena) (padding : Z) :
  in_address_space Capacity buffer_base ->
  used_ok Capacity a ->
  type_ok Capacity T ->
  spec_padding (alignof T) (buffer_base + m_used a) = padding ->
  m_used a + padding + sizeof T <= Capacity ->
  (allocate T obj a).1 = Some (buffer_base + (m_used a + padding)) /\
  m_used (allocate T obj a).2 = m_used a + padding + sizeof T.
Proof.
  intros Hplaced Hu HT <- Hfit.
  rewrite (allocate_exact T obj a Hplaced Hu HT). cbv zeta.
  destruct (Capacity <? _) eqn:Hchk; [apply Z.ltb_lt in Hchk; lia|].
  split; reflexivity.
Qed.

Lemma allocate_overflows (T : TypeInfo) (obj : list Byte.byte) (a : Arena) (padding : Z) :
  in_address_space Capacity buffer_base ->
  used_ok Capacity a ->
  type_ok Capacity T ->
  spec_padding (alignof T) (buffer_base + m_used a) = padding ->
  Capacity < m_used a + padding + sizeof T ->
  allocate T obj a = (None, a).
Proof.
  intros Hplaced Hu HT <- Hfit.
  rewrite (allocate_exact T obj a Hplaced Hu HT). cbv zeta.
  destruct (Capacity <? _) eqn:Hchk; [reflexivity|].
  apply Z.ltb_ge in Hchk. lia.
Qed.

(** C1 (atomic failure).  For every type, constructor argument and arena
    state: [allocate] fails (returns [nullptr]) exactly when the check
    [m_used + padding + sizeof(T) > Capacity] holds, and in that case the
    arena after the call is the arena before it; in particular [m_used] is
    unchanged. *)
Theorem allocate_failure_atomic :
  forall (T : TypeInfo) (obj : list Byte.byte) (a : Arena),
    ((allocate T obj a).1 = None <->
     Capacity <
       wrap (wrap (m_used a +
                   padding_for (alignof T) (wrap (buffer_base + m_used a)))
             + sizeof T)) /\
    ((allocate T obj a).1 = None ->
     m_used (allocate T obj a).2 = m_used a /\ (allocate T obj a).2 = a).
Proof.
  intros T obj a. split.
  - apply allocate_None_iff.
  - intros Hfail. apply allocate_None_same in Hfail.
    rewrite Hfail. split; reflexivity.
Qed.

(** *** Placement of a successful allocation *)

Lemma pow2_divides_max_align (n : Z) :
  is_pow2 n -> n <= MAX_ALIGN -> (n | MAX_ALIGN).
Proof.
  intros (k & Hk & ->) Hle. unfold MAX_ALIGN in *.
  assert (Hk4 : k <= 4).
  { apply (Z.pow_le_mono_r_iff 2); [lia | lia | exact Hle]. }
  exists (2 ^ (4 - k)). rewrite <- Z.pow_add_r by lia.
  now replace (4 - k + k) with 4 by lia.
Qed.

(** Objects are read back from the buffer where [allocate] wrote them. *)
Lemma read_inserts (i : nat) (k l : list Byte.byte) :
  (i + length k <= length l)%nat ->
  take (length k) (drop i (list_inserts i k l)) = k.
Proof.
  intros Hlen. apply list_eq. intros j.
  destruct (decide (j < length k)%nat) as [Hj|Hj].
  - rewrite lookup_take_lt by lia. rewrite lookup_drop.
    rewrite list_lookup_inserts by lia. f_equal. lia.
  - rewrite lookup_take_ge by lia. symmetry. apply lookup_ge_None_2. lia.
Qed.

(** C2 (placement and alignment).  For a type whose alignment is a power of
    two not exceeding that of [max_align_t], in every arena state satisfying
    the invariant on [m_used], a successful [allocate<T>] has computed
    [padding = (alignment - ((buffer_base + used) mod alignment)) mod alignment],
    returns the address [buffer_base + used + padding], which is a multiple of
    [alignof(T)] (as is the offset [used + padding] itself), holds the
    constructed object at that offset, and leaves
    [m_used = used + padding + sizeof(T)]. *)
Theorem allocate_success_placement :
  forall (T : TypeInfo) (obj : list Byte.byte) (a a' : Arena) (p : Z),
    in_address_space Capacity buffer_base ->
    buffer_base mod MAX_ALIGN = 0 ->
    used_ok Capacity a ->
    length (m_buffer a) = Z.to_nat Capacity ->
    type_ok Capacity T ->
    is_pow2 (alignof T) ->
    alignof T <= MAX_ALIGN ->
    length obj = Z.to_nat (sizeof T) ->
    allocate T obj a = (Some p, a') ->
    let padding :=
      (alignof T - (buffer_base + m_used a) mod alignof T) mod alignof T in
    padding_for (alignof T) (wrap (buffer_base + m_used a)) = padding /\
    p = buffer_base + (m_used a + padding) /\
    p mod alignof T = 0 /\
    (m_used a + padding) mod alignof T = 0 /\
    take (Z.to_nat (sizeof T))
         (drop (Z.to_nat (m_used a + padding)) (m_buffer a')) = obj /\
    m_used a' = m_used a + padding + sizeof T.
Proof.
  intros T obj a a' p Hplaced Hbase Hused Hbuf HT Hpow Hmax Hobj Halloc padding.
  pose proof Hplaced as [Hb0 Hb1]. pose proof Hused as [Hu0 Hu1].
  pose proof HT as (Hal & Hsz & Hfit).
  change padding with (spec_padding (alignof T) (buffer_base + m_used a)) in *.
  pose proof (spec_padding_range (alignof T) (buffer_base + m_used a) Hal) as Hp.
  pose proof (spec_padding_aligns (alignof T) (buffer_base + m_used a) Hal) as Hpa.
  rewrite (allocate_exact T obj a Hplaced Hused HT) in Halloc. simpl in Halloc.
  destruct (Capacity <? _) eqn:Hchk in Halloc; [discriminate|].
  apply Z.ltb_ge in Hchk.
  injection Halloc as <- <-. simpl.
  split; [apply padding_for_spec; lia|].
  split; [reflexivity|].
  split; [now rewrite Z.add_assoc|].
  split.
  - apply pow2_divides_max_align in Hpow; [|exact Hmax].
    apply Z.mod_divide in Hbase; [|unfold MAX_ALIGN; lia].
    assert (Hdiv : (alignof T | buffer_base)) by (etransitivity; eassumption).
    destruct Hdiv as [q Hq].
    replace (buffer_base + m_used a +
             spec_padding (alignof T) (buffer_base + m_used a))
      with (m_used a + spec_padding (alignof T) (buffer_base + m_used a)
            + q * alignof T) in Hpa by lia.
    now rewrite Z.mod_add in Hpa by lia.
  - split; [|reflexivity].
    assert (Hlen : length (take (Z.to_nat (sizeof T)) obj) = Z.to_nat (sizeof T)).
    { rewrite length_take. lia. }
    rewrite <- Hlen at 1. rewrite read_inserts.
    + apply take_ge. lia.
    + rewrite Hlen, Hbuf. lia.
Qed.

(** *** The invariant on [m_used] *)

Lemma padding_for_range (alignment cur_addr : Z) :
  0 < alignment -> 0 <= padding_for alignment cur_addr < alignment.
Proof. intros H. unfold padding_for. now apply Z.mod_pos_bound. Qed.

(** The check-before-mutate order keeps [m_used] within the capacity, for
    any type whatsoever. *)
Lemma allocate_used_ok (T : TypeInfo) (obj : list Byte.byte) (a : Arena) :
  used_ok Capacity a -> used_ok Capacity (allocate T obj a).2.
Proof.
  intros Hu. unfold allocate.
  destruct (Capacity <? _) eqn:Hchk; simpl; [exact Hu|].
  apply Z.ltb_ge in Hchk. unfold used_ok. simpl.
  split; [apply wrap_range | exact Hchk].
Qed.

Lemma allocate_monotone (T : TypeInfo) (obj : list Byte.byte) (a : Arena) :
  used_ok Capacity a -> type_ok Capacity T ->
  m_used a <= m_used (allocate T obj a).2.
Proof.
  intros [Hu0 Hu1] (Hal & Hsz & Hfit). unfold allocate.
  destruct (Capacity <? _) eqn:Hchk; simpl; [lia|].
  pose proof (padding_for_range (alignof T) (wrap (buffer_base + m_used a)) Hal).
  rewrite (wrap_small (m_used a + _)) by lia.
  rewrite wrap_small by lia. lia.
Qed.

Lemma call_used_ok (c : Call) (a : Arena) :
  0 <= Capacity -> used_ok Capacity a -> used_ok Capacity (call c a).2.
Proof.
  intros Hc Hu. destruct c as [T obj|]; simpl.
  - pose proof (allocate_used_ok T obj a Hu) as H.
    now destruct (allocate T obj a) as [[p|] a'].
  - unfold used_ok. simpl. lia.
Qed.

Lemma call_monotone (c : Call) (a : Arena) :
  used_ok Capacity a -> call_ok Capacity c -> is_allocate c ->
  m_used a <= m_used (call c a).2.
Proof.
  intros Hu Hok Hc. destruct c as [T obj|]; simpl in *; [|contradiction].
  pose proof (allocate_monotone T obj a Hu Hok) as H.
  now destruct (allocate T obj a) as [[p|] a'].
Qed.

Lemma run_cons (c : Call) (cs : list Call) (a : Arena) :
  run (c :: cs) a = ((call c a).1 :: (run cs (call c a).2).1,
                     (run cs (call c a).2).2).
Proof.
  simpl. destruct (call c a) as [e a1]. simpl.
  now destruct (run cs a1) as [es a2].
Qed.

Lemma run_used_ok (cs : list Call) (a : Arena) :
  0 <= Capacity -> used_ok Capacity a -> used_ok Capacity (run cs a).2.
Proof.
  intros Hc. revert a. induction cs as [|c cs IH]; intros a Hu; [exact Hu|].
  rewrite run_cons. simpl. apply IH. now apply call_used_ok.
Qed.

Lemma run_monotone (cs : list Call) (a : Arena) :
  0 <= Capacity -> used_ok Capacity a ->
  Forall (call_ok Capacity) cs -> Forall is_allocate cs ->
  m_used a <= m_used (run cs a).2.
Proof.
  intros Hc. revert a.
  induction cs as [|c cs IH]; intros a Hu Hok Hal; [simpl; lia|].
  apply Forall_cons in Hok as [Hok1 Hok]. apply Forall_cons in Hal as [Hal1 Hal].
  rewrite run_cons. simpl.
  pose proof (call_monotone c a Hu Hok1 Hal1).
  pose proof (IH (call c a).2 (call_used_ok c a Hc Hu) Hok Hal). lia.
Qed.

Lemma Arena_new_used_ok (mem : list Byte.byte) :
  0 <= Capacity -> used_ok Capacity (Arena_new mem).
Proof. intros Hc. unfold used_ok. simpl. lia. Qed.

(** C3 (bounds and monotonicity of [m_used]).  In every state reached from
    a fresh arena by a sequence of [allocate] and [reset] calls,
    [0 <= m_used <= Capacity]; from such a state no sequence of [allocate]
    calls decreases [m_used], a single [allocate] in particular; and a call
    that does decrease it is a [reset]. *)
Theorem used_bounded_and_monotone :
  forall (mem : list Byte.byte) (cs : list Call),
    0 <= Capacity ->
    let a := (run cs (Arena_new mem)).2 in
    0 <= m_used a <= Capacity /\
    (forall (T : TypeInfo) (obj : list Byte.byte),
        type_ok Capacity T -> m_used a <= m_used (allocate T obj a).2) /\
    (forall more : list Call,
        Forall (call_ok Capacity) more -> Forall is_allocate more ->
        m_used a <= m_used (run more a).2) /\
    (forall c : Call,
        call_ok Capacity c -> m_used (call c a).2 < m_used a -> c = Reset).
Proof.
  intros mem cs Hc a.
  assert (Hu : used_ok Capacity a).
  { apply run_used_ok; [exact Hc|]. now apply Arena_new_used_ok. }
  split; [exact Hu|]. split; [|split].
  - intros T obj HT. now apply allocate_monotone.
  - intros more Hmore Hal. now apply run_monotone.
  - intros c Hcok Hlt. destruct c as [T obj|]; [|reflexivity].
    pose proof (call_monotone (Allocate T obj) a Hu Hcok I). lia.
Qed.

(** *** Exhaustion *)

Lemma cumulative_padded_size_ge (used : Z) (Ts : list TypeInfo) :
  Forall (type_ok Capacity) Ts ->
  used <= cumulative_padded_size buffer_base used Ts.
Proof.
  revert used. induction Ts as [|T Ts IH]; intros used HTs; simpl; [lia|].
  apply Forall_cons in HTs as [(Hal & Hsz & _) HTs].
  pose proof (spec_padding_range (alignof T) (buffer_base + used) Hal).
  specialize (IH (used + spec_padding (alignof T) (buffer_base + used) + sizeof T) HTs).
  lia.
Qed.

Lemma requested_ok (cs : list Call) :
  Forall (call_ok Capacity) cs ->
  Forall (type_ok Capacity) (flat_map requested cs).
Proof.
  induction 1 as [|c cs Hc _ IH]; simpl; [constructor|].
  destruct c as [T obj|]; simpl; [constructor|]; assumption.
Qed.

(** A run of requests that adds up to the capacity goes through whole. *)
Lemma run_exact_fit (cs : list Call) (a : Arena) :
  in_address_space Capacity buffer_base ->
  used_ok Capacity a ->
  Forall (call_ok Capacity) cs -> Forall is_allocate cs ->
  cumulative_padded_size buffer_base (m_used a) (flat_map requested cs) = Capacity ->
  Forall is_Allocated (run cs a).1 /\ m_used (run cs a).2 = Capacity.
Proof.
  intros Hplaced. revert a.
  induction cs as [|c cs IH]; intros a Hu Hok Hal Hsum.
  { simpl in *. split; [constructor | exact Hsum]. }
  apply Forall_cons in Hok as [Hok1 Hok]. apply Forall_cons in Hal as [Hal1 Hal].
  destruct c as [T obj|]; [|contradiction]. simpl in Hok1.
  rewrite run_cons. cbn [fst snd].
  change (flat_map requested (Allocate T obj :: cs))
    with (T :: flat_map requested cs) in Hsum.
  cbn [cumulative_padded_size] in Hsum.
  pose proof (cumulative_padded_size_ge
                (m_used a + spec_padding (alignof T) (buffer_base + m_used a)
                 + sizeof T) _ (requested_ok cs Hok)) as Hge.
  rewrite Hsum in Hge.
  assert (Hcall : call (Allocate T obj) a =
    (Allocated T (buffer_base + (m_used a + spec_padding (alignof T) (buffer_base + m_used a))),
     (allocate T obj a).2) /\
    m_used (allocate T obj a).2 =
      m_used a + spec_padding (alignof T) (buffer_base + m_used a) + sizeof T).
  { cbn [call]. rewrite (allocate_exact T obj a Hplaced Hu Hok1).
    cbv zeta. destruct (Capacity <? _) eqn:Hchk; [apply Z.ltb_lt in Hchk; lia|].
    split; reflexivity. }
  destruct Hcall as [Hcall Hused]. rewrite Hcall. cbn [fst snd].
  destruct (IH (allocate T obj a).2) as [IHev IHused].
  - apply allocate_used_ok, Hu.
  - exact Hok.
  - exact Hal.
  - now rewrite Hused.
  - split; [|exact IHused]. constructor; [exact I | exact IHev].
Qed.

(** C4 (exhaustion boundary).  When the cumulative padded size of a
    sequence of requests, made one after another from a state within the
    capacity (a fresh arena in particular), is exactly [Capacity], every one
    of them succeeds (the last is an exact fit,
    [m_used + padding + sizeof(T) = Capacity]), [m_used] ends at [Capacity],
    and any further [allocate] of a type of positive size returns [nullptr]
    and leaves the arena as it is. *)
Theorem exact_fit_then_exhausted :
  forall (a : Arena) (cs : list Call),
    in_address_space Capacity buffer_base ->
    used_ok Capacity a ->
    Forall (call_ok Capacity) cs -> Forall is_allocate cs ->
    cumulative_padded_size buffer_base (m_used a) (flat_map requested cs)
      = Capacity ->
    let full := (run cs a).2 in
    Forall is_Allocated (run cs a).1 /\
    m_used full = Capacity /\
    (forall (T : TypeInfo) (obj : list Byte.byte),
        type_ok Capacity T -> allocate T obj full = (None, full)).
Proof.
  intros a cs Hplaced Hu0 Hok Hal Hsum full.
  destruct (run_exact_fit cs a Hplaced Hu0 Hok Hal Hsum) as [Hev Hused].
  fold full in Hused. split; [exact Hev|]. split; [exact Hused|].
  intros T obj HT.
  assert (Hu : used_ok Capacity full) by (unfold used_ok in *; lia).
  rewrite (allocate_exact T obj full Hplaced Hu HT). cbv zeta.
  destruct HT as (Hal' & Hsz & _).
  pose proof (spec_padding_range (alignof T) (buffer_base + m_used full) Hal').
  destruct (Capacity <? _) eqn:Hchk; [reflexivity|].
  apply Z.ltb_ge in Hchk. lia.
Qed.

(** *** Regions of one generation *)

Lemma packed_nil (used : Z) : 0 <= used -> packed [] used.
Proof.
  intros Hu. split; [exact Hu|].
  split; intros *; rewrite ?lookup_nil; intros; discriminate.
Qed.

Lemma packed_snoc (live : list region) (used offset len : Z) :
  packed live used -> used <= offset -> 0 <= len ->
  packed (live ++ [(offset, len)]) (offset + len).
Proof.
  intros (Hu & Hin & Hord) Hoff Hlen. split; [lia|]. split.
  - intros i r Hi. apply lookup_app_Some in Hi as [Hi|[_ Hi]].
    + apply Hin in Hi. lia.
    + apply list_lookup_singleton_Some in Hi as [_ <-]. simpl. lia.
  - intros i j r1 r2 Hij Hi Hj.
    apply lookup_app_Some in Hj as [Hj|[Hjlen Hj]].
    + apply lookup_app_Some in Hi as [Hi|[Hilen _]].
      * eapply Hord; eassumption.
      * apply lookup_lt_Some in Hj. lia.
    + apply list_lookup_singleton_Some in Hj as [Hj0 <-]. simpl.
      apply lookup_app_Some in Hi as [Hi|[Hilen _]]; [|lia].
      apply Hin in Hi. lia.
Qed.

(** Every reachable state keeps the regions of the current generation
    packed below [m_used]. *)
Lemma run_generation_packed (cs : list Call) (a : Arena) (live : list region) :
  in_address_space Capacity buffer_base ->
  0 <= Capacity ->
  used_ok Capacity a ->
  Forall (call_ok Capacity) cs ->
  packed live (m_used a) ->
  packed (generation buffer_base (run cs a).1 live) (m_used (run cs a).2).
Proof.
  intros Hplaced Hc. revert a live.
  induction cs as [|c cs IH]; intros a live Hu Hok Hp; [exact Hp|].
  apply Forall_cons in Hok as [Hok1 Hok].
  rewrite run_cons. cbn [fst snd].
  pose proof (call_used_ok c a Hc Hu) as Hu'.
  destruct c as [T obj|].
  - simpl in Hok1. cbn [call] in *.
    rewrite (allocate_exact T obj a Hplaced Hu Hok1) in *. cbv zeta in *.
    destruct Hok1 as (Hal & Hsz & Hfit).
    pose proof (spec_padding_range (alignof T) (buffer_base + m_used a) Hal).
    destruct (Capacity <? _) eqn:Hchk; cbn [fst snd generation] in *.
    + now apply IH.
    + apply IH; [exact Hu' | exact Hok |]. cbn [m_used].
      replace (buffer_base + (m_used a + spec_padding (alignof T) (buffer_base + m_used a))
               - buffer_base)
        with (m_used a + spec_padding (alignof T) (buffer_base + m_used a)) by lia.
      apply (packed_snoc live (m_used a)); [exact Hp | lia | lia].
  - cbn [call fst snd generation] in *.
    apply IH; [exact Hu' | exact Hok |]. apply packed_nil. simpl. lia.
Qed.

(** C6 (regions in bounds and disjoint).  After any sequence of calls on a
    fresh arena, each region [[offset, offset + size)] of a successful
    allocation of the current generation lies within [[0, Capacity)], and a
    later one starts at or after the end of every earlier one, so that any
    two of them are disjoint. *)
Theorem generation_regions_disjoint :
  forall (mem : list Byte.byte) (cs : list Call),
    in_address_space Capacity buffer_base ->
    0 <= Capacity ->
    Forall (call_ok Capacity) cs ->
    let live := generation buffer_base (run cs (Arena_new mem)).1 [] in
    (forall (i : nat) (r : region),
        live !! i = Some r -> within Capacity r) /\
    (forall (i j : nat) (r1 r2 : region),
        (i < j)%nat -> live !! i = Some r1 -> live !! j = Some r2 ->
        r1.1 + r1.2 <= r2.1 /\ disjoint_regions r1 r2).
Proof.
  intros mem cs Hplaced Hc Hok live.
  pose proof (Arena_new_used_ok mem Hc) as Hu0.
  pose proof (run_generation_packed cs (Arena_new mem) [] Hplaced Hc Hu0 Hok
                (packed_nil 0 ltac:(lia))) as (_ & Hin & Hord).
  pose proof (run_used_ok cs (Arena_new mem) Hc Hu0) as [_ Hu].
  fold live in Hin, Hord. split.
  - intros i r Hi. apply Hin in Hi. unfold within. lia.
  - intros i j r1 r2 Hij Hi Hj.
    pose proof (Hord i j r1 r2 Hij Hi Hj). unfold disjoint_regions. lia.
Qed.

(** *** What [reset] leaves alone *)

(** C10 (frame of [reset]).  [reset] changes [m_used] and nothing else: the
    buffer holds the same bytes after it as before, so every byte written in
    the previous generation is still read at its old offset; and the next
    [allocate] overwrites at most the [sizeof(T)] bytes of the object it
    constructs, leaving every other byte as it was before the reset. *)
Theorem reset_preserves_buffer :
  forall (a : Arena) (T : TypeInfo) (obj : list Byte.byte),
    in_address_space Capacity buffer_base ->
    0 <= Capacity ->
    type_ok Capacity T ->
    m_buffer (reset a) = m_buffer a /\
    m_allocations (reset a) = m_allocations a /\
    (forall (i : nat) (x : Byte.byte),
        m_buffer a !! i = Some x -> m_buffer (reset a) !! i = Some x) /\
    match allocate T obj (reset a) with
    | (None, a') => m_buffer a' = m_buffer a
    | (Some p, a') =>
        forall i : nat,
          Z.of_nat i < p - buffer_base \/ p - buffer_base + sizeof T <= Z.of_nat i ->
          m_buffer a' !! i = m_buffer a !! i
    end.
Proof.
  intros a T obj Hplaced Hc HT.
  split; [reflexivity|]. split; [reflexivity|]. split; [now intros i x Hi|].
  assert (Hu : used_ok Capacity (reset a)) by (unfold used_ok; simpl; lia).
  rewrite (allocate_exact T obj (reset a) Hplaced Hu HT). cbv zeta.
  destruct HT as (Hal & Hsz & _).
  pose proof (spec_padding_range (alignof T) (buffer_base + m_used (reset a)) Hal).
  destruct (Capacity <? _); [reflexivity|].
  cbn [m_buffer reset m_used] in *. intros i Hi.
  pose proof (length_take obj (Z.to_nat (sizeof T))) as Hlen.
  destruct Hi as [Hi|Hi].
  - apply list_lookup_inserts_lt. lia.
  - apply list_lookup_inserts_ge. lia.
Qed.

End Core.

(** ** The debug ledger *)

(** One [allocate] decides alike in both builds, whatever the ledgers hold. *)
Lemma allocate_ledger_independent
    (Capacity buffer_base : Z) (T : TypeInfo) (obj : list Byte.byte)
    (a1 a2 : Arena) :
  m_used a1 = m_used a2 -> m_buffer a1 = m_buffer a2 ->
  (allocate true Capacity buffer_base T obj a1).1 =
    (allocate false Capacity buffer_base T obj a2).1 /\
  m_used (allocate true Capacity buffer_base T obj a1).2 =
    m_used (allocate false Capacity buffer_base T obj a2).2 /\
  m_buffer (allocate true Capacity buffer_base T obj a1).2 =
    m_buffer (allocate false Capacity buffer_base T obj a2).2.
Proof.
  intros Hu Hb. unfold allocate. rewrite Hu, Hb.
  destruct (Capacity <? _); simpl; auto.
Qed.

Lemma call_ledger_independent
    (Capacity buffer_base : Z) (c : Call) (a1 a2 : Arena) :
  m_used a1 = m_used a2 -> m_buffer a1 = m_buffer a2 ->
  (call true Capacity buffer_base c a1).1 =
    (call false Capacity buffer_base c a2).1 /\
  m_used (call true Capacity buffer_base c a1).2 =
    m_used (call false Capacity buffer_base c a2).2 /\
  m_buffer (call true Capacity buffer_base c a1).2 =
    m_buffer (call false Capacity buffer_base c a2).2.
Proof.
  intros Hu Hb. destruct c as [T obj|]; simpl.
  - destruct (allocate_ledger_independent Capacity buffer_base T obj a1 a2 Hu Hb)
      as (Hr & Hu' & Hb').
    destruct (allocate true Capacity buffer_base T obj a1) as [r1 a1'].
    destruct (allocate false Capacity buffer_base T obj a2) as [r2 a2'].
    simpl in *. subst r2. destruct r1; simpl; auto.
  - auto.
Qed.

Lemma run_ledger_independent
    (Capacity buffer_base : Z) (cs : list Call) (a1 a2 : Arena) :
  m_used a1 = m_used a2 -> m_buffer a1 = m_buffer a2 ->
  (run true Capacity buffer_base cs a1).1 =
    (run false Capacity buffer_base cs a2).1 /\
  m_used (run true Capacity buffer_base cs a1).2 =
    m_used (run false Capacity buffer_base cs a2).2 /\
  m_buffer (run true Capacity buffer_base cs a1).2 =
    m_buffer (run false Capacity buffer_base cs a2).2.
Proof.
  revert a1 a2. induction cs as [|c cs IH]; intros a1 a2 Hu Hb; [simpl; auto|].
  rewrite !run_cons. cbn [fst snd].
  destruct (call_ledger_independent Capacity buffer_base c a1 a2 Hu Hb)
    as (He & Hu' & Hb').
  destruct (IH _ _ Hu' Hb') as (Hes & Hu'' & Hb'').
  rewrite He, Hes. auto.
Qed.

Lemma run_release_ledger
    (Capacity buffer_base : Z) (cs : list Call) (a : Arena) :
  m_allocations (run false Capacity buffer_base cs a).2 = m_allocations a.
Proof.
  revert a. induction cs as [|c cs IH]; intros a; [reflexivity|].
  rewrite run_cons. cbn [fst snd]. rewrite IH.
  destruct c as [T obj|]; simpl; [|reflexivity].
  unfold allocate. destruct (Capacity <? _); reflexivity.
Qed.

(** C9 (the ledger is passive).  For every sequence of calls made on the
    same arena, the build with the ledger and the build without it return
    the same results call by call (the same failures, the same addresses)
    and end with the same [m_used] and the same buffer; the build without
    the ledger never touches [m_allocations]. *)
Theorem ledger_never_influences_allocation :
  forall (Capacity buffer_base : Z) (cs : list Call) (a : Arena),
    (run true Capacity buffer_base cs a).1 =
      (run false Capacity buffer_base cs a).1 /\
    m_used (run true Capacity buffer_base cs a).2 =
      m_used (run false Capacity buffer_base cs a).2 /\
    m_buffer (run true Capacity buffer_base cs a).2 =
      m_buffer (run false Capacity buffer_base cs a).2 /\
    m_allocations (run false Capacity buffer_base cs a).2 = m_allocations a.
Proof.
  intros Capacity buffer_base cs a.
  destruct (run_ledger_independent Capacity buffer_base cs a a eq_refl eq_refl)
    as (He & Hu & Hb).
  repeat split; try assumption. apply run_release_ledger.
Qed.

(** C5 ([reset] and the ledger).  [reset] sets [m_used] to 0 in every state
    and leaves [m_allocations] as it is, in both builds.  In a [DEBUG] build
    of capacity 64 the record of an [int] allocated before a [reset] is still
    in the ledger after it, and allocating an [int] again adds a second record
    at the same address. *)
Theorem reset_keeps_ledger :
  (forall a : Arena,
      m_used (reset a) = 0 /\ m_allocations (reset a) = m_allocations a) /\
  (let a := (run true 64 4096 [Allocate int_info (zeros 4); Reset]
               (Arena_new (zeros 64))).2 in
   m_used a = 0 /\
   m_allocations a = [{| address := 4096; size := 4; type_name := "i" |}]) /\
  (let a := (run true 64 4096
               [Allocate int_info (zeros 4); Reset; Allocate int_info (zeros 4)]
               (Arena_new (zeros 64))).2 in
   m_used a = 4 /\
   m_allocations a = [{| address := 4096; size := 4; type_name := "i" |};
                      {| address := 4096; size := 4; type_name := "i" |}]).
Proof.
  split; [intros a; split; reflexivity|].
  split; vm_compute; split; reflexivity.
Qed.

(** ** The scenario of capacity 64 *)

(** C7 (concrete scenario).  In an arena of capacity 64 whose buffer is
    aligned as [max_align_t]: a 4-byte 4-aligned value is placed at offset 0
    and [m_used] becomes 4; an 8-byte 8-aligned value then gets 4 bytes of
    padding, is placed at offset 8 and [m_used] becomes 16; a 50-byte
    1-aligned value then fails and [m_used] stays 16; [reset] makes [m_used]
    0; and the 4-byte value allocated again is placed at offset 0 with
    [m_used = 4], at the address of the first allocation. *)
Theorem scenario_capacity_64 :
  forall (DEBUG : bool) (buffer_base : Z) (nA nB nC : string)
         (mem oA oB oC oA' : list Byte.byte),
    in_address_space 64 buffer_base ->
    buffer_base mod MAX_ALIGN = 0 ->
    let A := {| sizeof := 4; alignof := 4; name := nA |} in
    let B := {| sizeof := 8; alignof := 8; name := nB |} in
    let C := {| sizeof := 50; alignof := 1; name := nC |} in
    let r1 := allocate DEBUG 64 buffer_base A oA (Arena_new mem) in
    let r2 := allocate DEBUG 64 buffer_base B oB r1.2 in
    let r3 := allocate DEBUG 64 buffer_base C oC r2.2 in
    let a4 := reset r3.2 in
    let r5 := allocate DEBUG 64 buffer_base A oA' a4 in
    (r1.1 = Some (buffer_base + 0) /\ m_used r1.2 = 4) /\
    (padding_for 8 (wrap (buffer_base + 4)) = 4 /\
     r2.1 = Some (buffer_base + 8) /\ m_used r2.2 = 16) /\
    (r3.1 = None /\ m_used r3.2 = 16) /\
    m_used a4 = 0 /\
    (r5.1 = Some (buffer_base + 0) /\ m_used r5.2 = 4 /\ r5.1 = r1.1).
Proof.
  intros DEBUG buffer_base nA nB nC mem oA oB oC oA' Hplaced Hbase A B C.
  apply Z.mod_divide in Hbase; [|unfold MAX_ALIGN; lia].
  assert (Hdiv : forall n, (n | MAX_ALIGN) -> (n | buffer_base))
    by (intros n Hn; etransitivity; eassumption).
  assert (H4 : (4 | buffer_base)) by (apply Hdiv; now exists 4).
  assert (H8 : (8 | buffer_base)) by (apply Hdiv; now exists 2).
  assert (H1 : (1 | buffer_base)) by apply Z.divide_1_l.
  assert (HA : type_ok 64 A) by (unfold type_ok; simpl; lia).
  assert (HB : type_ok 64 B) by (unfold type_ok; simpl; lia).
  assert (HC : type_ok 64 C) by (unfold type_ok; simpl; lia).
  intros r1.
  destruct (allocate_fits DEBUG 64 buffer_base A oA (Arena_new mem) 0 Hplaced)
    as [Hr1 Hu1]; try assumption.
  { unfold used_ok; simpl; lia. }
  { simpl. now rewrite spec_padding_shift by (lia || assumption). }
  { simpl; lia. }
  fold r1 in Hr1, Hu1. simpl in Hr1, Hu1.
  intros r2.
  destruct (allocate_fits DEBUG 64 buffer_base B oB r1.2 4 Hplaced)
    as [Hr2 Hu2]; try assumption.
  { unfold used_ok; lia. }
  { rewrite Hu1. simpl. now rewrite spec_padding_shift by (lia || assumption). }
  { rewrite Hu1. simpl; lia. }
  fold r2 in Hr2, Hu2. rewrite Hu1 in Hr2, Hu2. simpl in Hr2, Hu2.
  intros r3.
  assert (Hr3 : r3 = (None, r2.2)).
  { apply (allocate_overflows DEBUG 64 buffer_base C oC r2.2 0 Hplaced);
      try assumption.
    - unfold used_ok; lia.
    - rewrite Hu2. simpl. now rewrite spec_padding_shift by (lia || assumption).
    - rewrite Hu2. simpl; lia. }
  intros a4 r5.
  destruct (allocate_fits DEBUG 64 buffer_base A oA' a4 0 Hplaced)
    as [Hr5 Hu5]; try assumption.
  { unfold used_ok; simpl; lia. }
  { simpl. now rewrite spec_padding_shift by (lia || assumption). }
  { simpl; lia. }
  fold r5 in Hr5, Hu5. simpl in Hr5, Hu5.
  destruct Hplaced as [Hb0 Hb1].
  repeat split; try assumption.
  - rewrite padding_for_spec by lia.
    now rewrite spec_padding_shift by (lia || assumption).
  - now rewrite Hr3.
  - now rewrite Hr3.
  - congruence.
Qed.

(** ** The memory map *)

Lemma string_app_assoc (s1 s2 s3 : string) :
  (s1 +:+ s2) +:+ s3 = s1 +:+ (s2 +:+ s3).
Proof.
  induction s1 as [|c s1 IH]; [reflexivity|].
  change (String c ((s1 +:+ s2) +:+ s3) = String c (s1 +:+ (s2 +:+ s3))).
  now rewrite IH.
Qed.

Lemma string_app_nil_r (s : string) : s +:+ EmptyString = s.
Proof.
  induction s as [|c s IH]; [reflexivity|].
  change (String c (s +:+ EmptyString) = String c s). now rewrite IH.
Qed.

Lemma render_regions_app (rs1 rs2 : list Region) :
  render_regions (rs1 ++ rs2) = render_regions rs1 +:+ render_regions rs2.
Proof.
  induction rs1 as [|r rs1 IH]; simpl; [reflexivity|].
  now rewrite IH, string_app_assoc.
Qed.

Lemma tiles_app (from mid to : Z) (rs1 rs2 : list Region) :
  tiles from rs1 mid -> tiles mid rs2 to -> tiles from (rs1 ++ rs2) to.
Proof.
  revert from. induction rs1 as [|r rs1 IH]; simpl; intros from H1 H2.
  - now subst mid.
  - destruct H1 as (Ho & Hl & H1). auto.
Qed.

Lemma objects_app (rs1 rs2 : list Region) :
  objects (rs1 ++ rs2) = objects rs1 ++ objects rs2.
Proof.
  induction rs1 as [|r rs1 IH]; simpl; [reflexivity|].
  destruct r; simpl; now rewrite IH.
Qed.

Section Ledger.
Variable buffer_base : Z.

Lemma ledger_chain_le (ledger : list AllocationInfo) (from to : Z) :
  ledger_chain buffer_base from ledger to -> from <= to.
Proof.
  revert from. induction ledger as [|rec rest IH]; simpl; intros from H; [lia|].
  destruct H as (Hfrom & Hsz & H). apply IH in H. lia.
Qed.

Lemma ledger_chain_snoc (ledger : list AllocationInfo) (from to : Z)
    (rec : AllocationInfo) :
  ledger_chain buffer_base from ledger to ->
  to <= address rec - buffer_base -> 0 < size rec ->
  ledger_chain buffer_base from (ledger ++ [rec])
               (address rec - buffer_base + size rec).
Proof.
  revert from. induction ledger as [|r rest IH]; simpl; intros from H Hto Hsz.
  - subst to. auto.
  - destruct H as (Hfrom & Hsz' & H). auto.
Qed.

(** On the ledger of one generation the loop of [display_map] prints the
    lines the specification lists. *)
Lemma display_allocations_regions (ledger : list AllocationInfo) (from to : Z) :
  0 <= from -> to < 2 ^ 64 ->
  ledger_chain buffer_base from ledger to ->
  display_allocations buffer_base ledger from =
    render_regions (recorded_regions buffer_base from ledger).
Proof.
  revert from. induction ledger as [|rec rest IH]; intros from Hfrom Hto H;
    [reflexivity|].
  destruct H as (Hstart & Hsz & H).
  pose proof (ledger_chain_le _ _ _ H) as Hle.
  cbn [display_allocations recorded_regions]. cbv zeta.
  rewrite (wrap_small (address rec - buffer_base)) by lia.
  rewrite (wrap_small (address rec - buffer_base + size rec)) by lia.
  rewrite (IH (address rec - buffer_base + size rec)) by first [lia | assumption].
  destruct (from <? address rec - buffer_base) eqn:Hgap.
  - apply Z.ltb_lt in Hgap. rewrite wrap_small by lia.
    reflexivity.
  - reflexivity.
Qed.

Lemma recorded_regions_tile (ledger : list AllocationInfo) (from to : Z) :
  ledger_chain buffer_base from ledger to ->
  tiles from (recorded_regions buffer_base from ledger) to.
Proof.
  revert from. induction ledger as [|rec rest IH]; intros from H; [exact H|].
  destruct H as (Hstart & Hsz & H). apply IH in H.
  cbn [recorded_regions]. cbv zeta.
  destruct (from <? address rec - buffer_base) eqn:Hgap; simpl.
  - apply Z.ltb_lt in Hgap. split; [reflexivity|]. split; [lia|].
    replace (from + (address rec - buffer_base - from))
      with (address rec - buffer_base) by lia.
    auto.
  - apply Z.ltb_ge in Hgap. split; [lia|]. split; [exact Hsz|].
    now replace from with (address rec - buffer_base) by lia.
Qed.

Lemma recorded_regions_objects (ledger : list AllocationInfo) (from : Z) :
  objects (recorded_regions buffer_base from ledger) =
    map (fun rec => (address rec - buffer_base, type_name rec, size rec)) ledger.
Proof.
  revert from. induction ledger as [|rec rest IH]; intros from; [reflexivity|].
  cbn [recorded_regions]. cbv zeta. rewrite objects_app.
  destruct (from <? _); simpl; now rewrite IH.
Qed.

Lemma recorded_regions_not_free (ledger : list AllocationInfo) (from : Z) :
  Forall (fun r => ~ is_free r) (recorded_regions buffer_base from ledger).
Proof.
  revert from. induction ledger as [|rec rest IH]; intros from; [constructor|].
  cbn [recorded_regions]. cbv zeta.
  destruct (from <? _); simpl; repeat constructor; auto.
Qed.

End Ledger.

(** In a [DEBUG] build, allocations alone keep the ledger a chain from
    offset 0 to [m_used]. *)
Lemma run_ledger_chain (Capacity buffer_base : Z) (cs : list Call) (a : Arena) :
  in_address_space Capacity buffer_base ->
  used_ok Capacity a ->
  Forall (call_ok Capacity) cs -> Forall is_allocate cs ->
  ledger_chain buffer_base 0 (m_allocations a) (m_used a) ->
  ledger_chain buffer_base 0
    (m_allocations (run true Capacity buffer_base cs a).2)
    (m_used (run true Capacity buffer_base cs a).2).
Proof.
  intros Hplaced. revert a.
  induction cs as [|c cs IH]; intros a Hu Hok Hal Hchain; [exact Hchain|].
  apply Forall_cons in Hok as [Hok1 Hok]. apply Forall_cons in Hal as [Hal1 Hal].
  destruct c as [T obj|]; [|contradiction]. simpl in Hok1.
  rewrite run_cons. cbn [fst snd].
  pose proof (allocate_used_ok true Capacity buffer_base T obj a Hu) as Hu'.
  assert (Hstep : (call true Capacity buffer_base (Allocate T obj) a).2 =
                  (allocate true Capacity buffer_base T obj a).2).
  { simpl. now destruct (allocate true Capacity buffer_base T obj a) as [[p|] a']. }
  rewrite Hstep. apply IH; [exact Hu' | exact Hok | exact Hal |].
  rewrite (allocate_exact true Capacity buffer_base T obj a Hplaced Hu Hok1).
  cbv zeta. destruct Hok1 as (Halign & Hsz & _).
  pose proof (spec_padding_range (alignof T) (buffer_base + m_used a) Halign).
  destruct (Capacity <? _); cbn [fst snd m_allocations m_used]; [exact Hchain|].
  set (rec := {| address := _ |}).
  replace (m_used a + spec_padding (alignof T) (buffer_base + m_used a) + sizeof T)
    with (address rec - buffer_base + size rec) by (simpl; lia).
  apply (ledger_chain_snoc buffer_base _ 0 (m_used a)); simpl; [exact Hchain | lia | lia].
Qed.

(** A text that has [t] in it has it at some position. *)
Lemma occurs_in_substring (t s : string) :
  occurs_in t s ->
  exists m : nat, String.substring m (String.length t) s = t.
Proof.
  intros (pre & post & ->). exists (String.length pre).
  induction pre as [|c pre IH]; [|exact IH].
  change (String.substring 0 (String.length t) (t +:+ post) = t).
  induction t as [|c t IH]; [now destruct post|].
  change (String c (String.substring 0 (String.length t) (t +:+ post)) = String c t).
  now rewrite IH.
Qed.

(** C8 as the code has it (memory map of one generation).  In a [DEBUG]
    build, in every state reached from a fresh arena by [allocate] calls
    alone, [display_map] prints, between its header and its closing rule,
    exactly these lines: one line per recorded allocation, in ledger order,
    with its offset, type tag and size; before it a padding line wherever the
    previous recorded allocation ends below its start; and last a free-space
    line for [[m_used, Capacity)] when [m_used < Capacity].  The lines are in
    address order and cover [[0, Capacity)] without gap or overlap.  When
    [m_used = Capacity] no free-space line is printed. *)
Theorem display_map_lists_regions :
  forall (Capacity buffer_base : Z) (mem : list Byte.byte) (cs : list Call),
    in_address_space Capacity buffer_base ->
    0 <= Capacity ->
    Forall (call_ok Capacity) cs -> Forall is_allocate cs ->
    let a := (run true Capacity buffer_base cs (Arena_new mem)).2 in
    let lines := memory_map_regions Capacity buffer_base a in
    display_map true Capacity buffer_base a =
      map_header Capacity a +:+ render_regions lines +:+ rule +:+ nl +:+ nl /\
    tiles 0 lines Capacity /\
    objects lines =
      map (fun rec => (address rec - buffer_base, type_name rec, size rec))
          (m_allocations a) /\
    (m_used a < Capacity ->
     last lines = Some (FreeSpace (m_used a) (Capacity - m_used a))) /\
    (m_used a = Capacity -> Forall (fun r => ~ is_free r) lines).
Proof.
  intros Capacity buffer_base mem cs Hplaced Hc Hok Hal a lines.
  pose proof (Arena_new_used_ok Capacity mem Hc) as Hu0.
  pose proof (run_used_ok true Capacity buffer_base cs _ Hc Hu0) as Hu.
  fold a in Hu. destruct Hu as [Hu1 Hu2].
  assert (Hchain : ledger_chain buffer_base 0 (m_allocations a) (m_used a)).
  { apply run_ledger_chain; try assumption. reflexivity. }
  destruct Hplaced as [Hb0 Hb1].
  unfold lines, memory_map_regions, free_region.
  split; [|split; [|split; [|split]]].
  - unfold display_map.
    rewrite (display_allocations_regions buffer_base _ 0 (m_used a))
      by first [lia | assumption].
    rewrite render_regions_app.
    destruct (m_used a <? Capacity) eqn:Hfree.
    + apply Z.ltb_lt in Hfree. rewrite wrap_small by lia.
      cbn [render_regions render_region].
      now rewrite string_app_nil_r, !string_app_assoc.
    + now rewrite !string_app_assoc.
  - apply (tiles_app 0 (m_used a)); [now apply recorded_regions_tile|].
    destruct (m_used a <? Capacity) eqn:Hfree; simpl.
    + apply Z.ltb_lt in Hfree. repeat split; lia.
    + apply Z.ltb_ge in Hfree. lia.
  - rewrite objects_app, recorded_regions_objects.
    destruct (m_used a <? Capacity); simpl; now rewrite app_nil_r.
  - intros Hfree. apply Z.ltb_lt in Hfree. rewrite Hfree. apply last_snoc.
  - intros Hfull. rewrite Hfull, Z.ltb_irrefl, app_nil_r.
    apply recorded_regions_not_free.
Qed.

(** C8 as stated fails on a full arena.  In a [DEBUG] build of capacity 8,
    after a [double] has been allocated, [m_used = Capacity] and the text of
    [display_map] has no free-space line: ["(Free Space)"] occurs nowhere in
    it. *)
Lemma display_map_full_no_free_space :
  let a := (run true 8 4096 [Allocate double_info (zeros 8)]
              (Arena_new (zeros 8))).2 in
  m_used a = 8 /\
  ~ occurs_in "(Free Space)" (display_map true 8 4096 a).
Proof.
  split; [reflexivity|].
  intros Hocc. apply occurs_in_substring in Hocc as [m Hm].
  revert Hm. apply String.index_correct3 with (n := 0%nat); [|discriminate|lia].
  vm_compute. reflexivity.
Qed.

(** ** The theorems at work on concrete arenas *)

Ltac solve_calls_ok :=
  repeat (apply Forall_cons; split); try apply Forall_nil;
  simpl; unfold type_ok; simpl; try exact I; try lia.

Lemma in_address_space_4096 (Capacity : Z) :
  0 <= Capacity <= 4096 -> in_address_space Capacity 4096.
Proof. intros H. unfold in_address_space. lia. Defined.

Lemma allocate_success_placement_witness :
  let a := (allocate true 64 4096 int_info (zeros 4) (Arena_new (zeros 64))).2 in
  let obj := [Byte.x01; Byte.x02; Byte.x03; Byte.x04;
              Byte.x05; Byte.x06; Byte.x07; Byte.x08] in
  let r := allocate true 64 4096 double_info obj a in
  m_used a = 4 /\
  (padding_for 8 (wrap (4096 + 4)) = (8 - (4096 + 4) mod 8) mod 8 /\
   r.1 = Some 4104 /\
   4104 mod 8 = 0 /\
   (4 + (8 - (4096 + 4) mod 8) mod 8) mod 8 = 0 /\
   take 8 (drop 8 (m_buffer r.2)) = obj /\
   m_used r.2 = 16).
Proof.
  intros a obj r. split; [reflexivity|].
  destruct (allocate_success_placement true 64 4096 double_info obj a r.2 4104)
    as (H1 & H2 & H3 & H4 & H5 & H6).
  - apply in_address_space_4096. lia.
  - reflexivity.
  - change (0 <= 4 <= 64). lia.
  - reflexivity.
  - unfold type_ok. simpl. lia.
  - exists 3. split; [lia | reflexivity].
  - unfold MAX_ALIGN. simpl. lia.
  - reflexivity.
  - reflexivity.
  - repeat split; try assumption; reflexivity.
Defined.

Lemma used_bounded_and_monotone_witness :
  let a := (run true 64 4096 scenario_calls (Arena_new (zeros 64))).2 in
  0 <= m_used a <= 64 /\
  m_used a <= m_used (allocate true 64 4096 double_info (zeros 8) a).2.
Proof.
  intros a.
  destruct (used_bounded_and_monotone true 64 4096 (zeros 64) scenario_calls)
    as (Hbound & Hstep & _ & _); [lia|].
  split; [exact Hbound|].
  apply Hstep. unfold type_ok. simpl. lia.
Defined.

Lemma exact_fit_then_exhausted_witness :
  let cs := [Allocate int_info (zeros 4); Allocate double_info (zeros 8)] in
  let full := (run true 16 4096 cs (Arena_new (zeros 16))).2 in
  cumulative_padded_size 4096 0 (flat_map requested cs) = 16 /\
  Forall is_Allocated (run true 16 4096 cs (Arena_new (zeros 16))).1 /\
  m_used full = 16 /\
  allocate true 16 4096 char50_info (zeros 50) full = (None, full).
Proof.
  intros cs full.
  destruct (exact_fit_then_exhausted true 16 4096 (Arena_new (zeros 16)) cs)
    as (Hall & Hused & Hnext).
  - apply in_address_space_4096. lia.
  - unfold used_ok. simpl. lia.
  - solve_calls_ok.
  - solve_calls_ok.
  - reflexivity.
  - split; [reflexivity|]. split; [exact Hall|]. split; [exact Hused|].
    apply Hnext. unfold type_ok. simpl. lia.
Defined.

Lemma generation_regions_disjoint_witness :
  let cs := [Allocate double_info (zeros 8); Reset;
             Allocate int_info (zeros 4); Allocate double_info (zeros 8);
             Allocate char50_info (zeros 50)] in
  let live := generation 4096 (run true 64 4096 cs (Arena_new (zeros 64))).1 [] in
  live = [(0, 4); (8, 8)] /\
  within 64 (0, 4) /\ within 64 (8, 8) /\
  (0, 4).1 + (0, 4).2 <= (8, 8).1 /\ disjoint_regions (0, 4) (8, 8).
Proof.
  intros cs live.
  destruct (generation_regions_disjoint true 64 4096 (zeros 64) cs)
    as [Hwithin Hdisjoint].
  - apply in_address_space_4096. lia.
  - lia.
  - solve_calls_ok.
  - fold live in Hwithin, Hdisjoint.
    split; [reflexivity|].
    split; [apply (Hwithin 0%nat); reflexivity|].
    split; [apply (Hwithin 1%nat); reflexivity|].
    apply (Hdisjoint 0%nat 1%nat); [lia | reflexivity | reflexivity].
Defined.

Lemma scenario_capacity_64_witness :
  let r1 := allocate true 64 4096 int_info (zeros 4) (Arena_new (zeros 64)) in
  let r2 := allocate true 64 4096 double_info (zeros 8) r1.2 in
  let r3 := allocate true 64 4096 char50_info (zeros 50) r2.2 in
  m_used r1.2 = 4 /\ m_used r2.2 = 16 /\ r3.1 = None /\ m_used r3.2 = 16.
Proof.
  intros r1 r2 r3.
  destruct (scenario_capacity_64 true 4096 "i" "d" "A50_c"
              (zeros 64) (zeros 4) (zeros 8) (zeros 50) (zeros 4))
    as ((_ & H1) & (_ & _ & H2) & (H3 & H3') & _).
  - apply in_address_space_4096. lia.
  - reflexivity.
  - repeat split; assumption.
Defined.

Lemma display_map_lists_regions_witness :
  let cs := [Allocate int_info (zeros 4); Allocate double_info (zeros 8)] in
  let a := (run true 64 4096 cs (Arena_new (zeros 64))).2 in
  memory_map_regions 64 4096 a =
    [Object 0 "i" 4; Padding 4 4; Object 8 "d" 8; FreeSpace 16 48] /\
  display_map true 64 4096 a =
    map_header 64 a +:+ render_regions (memory_map_regions 64 4096 a) +:+
    rule +:+ nl +:+ nl /\
  tiles 0 (memory_map_regions 64 4096 a) 64.
Proof.
  intros cs a. split; [reflexivity|].
  destruct (display_map_lists_regions 64 4096 (zeros 64) cs)
    as (Htext & Htiles & _).
  - apply in_address_space_4096. lia.
  - lia.
  - solve_calls_ok.
  - solve_calls_ok.
  - split; [exact Htext | exact Htiles].
Defined.

Lemma reset_preserves_buffer_witness :
  let cs := [Allocate int_info [Byte.x2a; Byte.x00; Byte.x00; Byte.x00];
             Allocate double_info (zeros 8)] in
  let a := (run true 64 4096 cs (Arena_new (zeros 64))).2 in
  m_buffer (reset a) !! 0%nat = Some Byte.x2a /\
  m_buffer (reset a) = m_buffer a.
Proof.
  intros cs a.
  destruct (reset_preserves_buffer true 64 4096 a int_info (zeros 4))
    as (Hbuf & _ & Hread & _).
  - apply in_address_space_4096. lia.
  - lia.
  - unfold type_ok. simpl. lia.
  - split; [|exact Hbuf]. apply Hread. reflexivity.
Defined.

(** * Further properties of the arena *)

(** ** What a run depends on *)

(** The outcome of [allocate] and the new [m_used] are functions of the old
    [m_used] and of the type alone. *)
Lemma allocate_depends_on_used
    (D1 D2 : bool) (Capacity buffer_base : Z) (T : TypeInfo)
    (obj1 obj2 : list Byte.byte) (a1 a2 : Arena) :
  m_used a1 = m_used a2 ->
  (allocate D1 Capacity buffer_base T obj1 a1).1 =
    (allocate D2 Capacity buffer_base T obj2 a2).1 /\
  m_used (allocate D1 Capacity buffer_base T obj1 a1).2 =
    m_used (allocate D2 Capacity buffer_base T obj2 a2).2.
Proof.
  intros Hu. unfold allocate. rewrite Hu.
  destruct (Capacity <? _); simpl; auto.
Qed.

Lemma call_depends_on_used
    (D1 D2 : bool) (Capacity buffer_base : Z) (c1 c2 : Call) (a1 a2 : Arena) :
  same_request c1 c2 ->
  m_used a1 = m_used a2 ->
  (call D1 Capacity buffer_base c1 a1).1 = (call D2 Capacity buffer_base c2 a2).1 /\
  m_used (call D1 Capacity buffer_base c1 a1).2 =
    m_used (call D2 Capacity buffer_base c2 a2).2.
Proof.
  intros Hc Hu.
  destruct c1 as [T1 obj1|], c2 as [T2 obj2|]; simpl in Hc; try contradiction.
  - subst T2. simpl.
    destruct (allocate_depends_on_used D1 D2 Capacity buffer_base T1 obj1 obj2
                a1 a2 Hu) as [Hr Hu'].
    destruct (allocate D1 Capacity buffer_base T1 obj1 a1) as [r1 a1'].
    destruct (allocate D2 Capacity buffer_base T1 obj2 a2) as [r2 a2'].
    simpl in *. subst r2. destruct r1; simpl; auto.
  - simpl. auto.
Qed.

Lemma same_request_refl (c : Call) : same_request c c.
Proof. destruct c; simpl; auto. Qed.

(** X1 (reset reuse).  Whatever was done to an arena before, after [reset]
    it answers every sequence of calls as a freshly constructed arena does:
    the same failures, the same addresses, the same [m_used] at the end. *)
Theorem reset_behaves_as_new :
  forall (DEBUG : bool) (Capacity buffer_base : Z) (cs : list Call)
         (a : Arena) (mem : list Byte.byte),
    (run DEBUG Capacity buffer_base cs (reset a)).1 =
      (run DEBUG Capacity buffer_base cs (Arena_new mem)).1 /\
    m_used (run DEBUG Capacity buffer_base cs (reset a)).2 =
      m_used (run DEBUG Capacity buffer_base cs (Arena_new mem)).2.
Proof.
  intros DEBUG Capacity buffer_base cs a mem.
  assert (Hu : m_used (reset a) = m_used (Arena_new mem)) by reflexivity.
  revert Hu. generalize (reset a) (Arena_new mem). clear a mem.
  induction cs as [|c cs IH]; intros a1 a2 Hu; [simpl; auto|].
  rewrite !run_cons. cbn [fst snd].
  destruct (call_depends_on_used DEBUG DEBUG Capacity buffer_base c c a1 a2
              (same_request_refl c) Hu) as [He Hu'].
  destruct (IH _ _ Hu') as [Hes Hu''].
  rewrite He, Hes. auto.
Qed.

(** X2 (the constructed values do not matter).  Two sequences of calls that
    request the same types in the same order, started in arenas with the same
    [m_used], get the same failures and the same addresses and end with the
    same [m_used], whatever the constructors write, whatever the buffers and
    ledgers hold, and whichever build each arena is. *)
Theorem run_ignores_payload :
  forall (D1 D2 : bool) (Capacity buffer_base : Z) (cs1 cs2 : list Call)
         (a1 a2 : Arena),
    Forall2 same_request cs1 cs2 ->
    m_used a1 = m_used a2 ->
    (run D1 Capacity buffer_base cs1 a1).1 =
      (run D2 Capacity buffer_base cs2 a2).1 /\
    m_used (run D1 Capacity buffer_base cs1 a1).2 =
      m_used (run D2 Capacity buffer_base cs2 a2).2.
Proof.
  intros D1 D2 Capacity buffer_base cs1 cs2 a1 a2 Hcs. revert a1 a2.
  induction Hcs as [|c1 c2 cs1 cs2 Hc _ IH]; intros a1 a2 Hu; [simpl; auto|].
  rewrite !run_cons. cbn [fst snd].
  destruct (call_depends_on_used D1 D2 Capacity buffer_base c1 c2 a1 a2 Hc Hu)
    as [He Hu'].
  destruct (IH _ _ Hu') as [Hes Hu''].
  rewrite He, Hes. auto.
Qed.

(** ** The ledger as a log *)

(** X3 (the ledger is the log of the successes).  In a [DEBUG] build the
    ledger after a sequence of [allocate] calls is the ledger before it
    followed by one record per pointer returned, in the order of the calls,
    each with that pointer, [sizeof(T)] and the type's name; a failed call
    adds nothing. *)
Theorem ledger_logs_successes :
  forall (Capacity buffer_base : Z) (cs : list Call) (a : Arena),
    Forall is_allocate cs ->
    m_allocations (run true Capacity buffer_base cs a).2 =
      m_allocations a ++ records_of (run true Capacity buffer_base cs a).1.
Proof.
  intros Capacity buffer_base cs.
  induction cs as [|c cs IH]; intros a Hal.
  - simpl. now rewrite app_nil_r.
  - apply Forall_cons in Hal as [Hal1 Hal].
    destruct c as [T obj|]; [|contradiction].
    rewrite run_cons. cbn [fst snd]. rewrite IH by exact Hal.
    unfold records_of. cbn [flat_map]. rewrite app_assoc. f_equal.
    simpl. unfold allocate.
    destruct (Capacity <? _); simpl; [now rewrite app_nil_r|].
    reflexivity.
Qed.

(** ** The padding *)

(** X4 (least padding).  For an address and an alignment that fit
    [uintptr_t], the padding [allocate] computes is less than the alignment,
    brings the address onto a multiple of the alignment, is no larger than
    any other forward shift that does, and is zero exactly when the address
    is aligned already. *)
Theorem padding_for_least :
  forall alignment cur_addr : Z,
    0 < alignment < 2 ^ 64 ->
    0 <= cur_addr < 2 ^ 64 ->
    0 <= padding_for alignment cur_addr < alignment /\
    (cur_addr + padding_for alignment cur_addr) mod alignment = 0 /\
    (forall d : Z,
        0 <= d -> (cur_addr + d) mod alignment = 0 ->
        padding_for alignment cur_addr <= d) /\
    (padding_for alignment cur_addr = 0 <-> cur_addr mod alignment = 0).
Proof.
  intros alignment cur_addr Hal Haddr.
  assert (Hpf : padding_for alignment cur_addr = spec_padding alignment cur_addr).
  { rewrite <- (wrap_small cur_addr) at 1 by lia. apply padding_for_spec; lia. }
  rewrite Hpf.
  split; [apply spec_padding_range; lia|].
  split; [apply spec_padding_aligns; lia|].
  split; [intros d; apply spec_padding_minimal; lia|].
  split.
  - intros H0. pose proof (spec_padding_aligns alignment cur_addr ltac:(lia)) as H.
    now rewrite H0, Z.add_0_r in H.
  - apply spec_padding_zero. lia.
Qed.

Section Guarantees.
Variable DEBUG : bool.
Variables Capacity buffer_base : Z.

Local Abbreviation allocate := (allocate DEBUG Capacity buffer_base).
Local Abbreviation call := (call DEBUG Capacity buffer_base).
Local Abbreviation run := (run DEBUG Capacity buffer_base).

(** ** Room *)

(** X5 (when an allocation succeeds).  In a state within the capacity,
    [allocate<T>] succeeds whenever [sizeof(T) + alignof(T) - 1] bytes are
    left, whatever the address of the buffer; it succeeds only if
    [sizeof(T)] bytes are left; and a success advances [m_used] by at least
    [sizeof(T)] and by less than [sizeof(T) + alignof(T)]. *)
Theorem allocate_room :
  forall (T : TypeInfo) (obj : list Byte.byte) (a : Arena),
    in_address_space Capacity buffer_base ->
    used_ok Capacity a ->
    type_ok Capacity T ->
    (m_used a + (alignof T - 1) + sizeof T <= Capacity ->
     is_Some (allocate T obj a).1) /\
    (is_Some (allocate T obj a).1 ->
     m_used a + sizeof T <= Capacity /\
     m_used a + sizeof T <= m_used (allocate T obj a).2
       < m_used a + sizeof T + alignof T).
Proof.
  intros T obj a Hplaced Hu HT.
  rewrite (allocate_exact DEBUG Capacity buffer_base T obj a Hplaced Hu HT).
  cbv zeta. destruct HT as (Hal & Hsz & _).
  pose proof (spec_padding_range (alignof T) (buffer_base + m_used a) Hal).
  destruct (Capacity <? _) eqn:Hchk; cbn [fst snd m_used].
  - apply Z.ltb_lt in Hchk. split; [lia|]. intros [x Hx]. discriminate.
  - apply Z.ltb_ge in Hchk. split; [eauto|]. intros _. lia.
Qed.

(** ** Every pointer of a run *)

(** X6 (every pointer is aligned and inside the buffer).  Each pointer
    returned in the course of any sequence of calls, on a fresh arena or on
    any arena whose [m_used] is within the capacity, is a multiple of
    [alignof(T)] for the type it was asked for, and the [sizeof(T)] bytes
    from it on lie between the first and the last byte of the buffer. *)
Theorem run_pointers_aligned_in_buffer :
  forall (cs : list Call) (a : Arena) (T : TypeInfo) (p : Z),
    in_address_space Capacity buffer_base ->
    0 <= Capacity ->
    used_ok Capacity a ->
    Forall (call_ok Capacity) cs ->
    Allocated T p ∈ (run cs a).1 ->
    p mod alignof T = 0 /\
    buffer_base <= p /\ p + sizeof T <= buffer_base + Capacity.
Proof.
  intros cs a T p Hplaced Hc. revert a.
  induction cs as [|c cs IH]; intros a Hu Hok Hin; [now apply elem_of_nil in Hin|].
  apply Forall_cons in Hok as [Hok1 Hok].
  rewrite run_cons in Hin. cbn [fst snd] in Hin.
  pose proof (call_used_ok DEBUG Capacity buffer_base c a Hc Hu) as Hu'.
  apply elem_of_cons in Hin as [Hhere|Hlater].
  - destruct c as [T' obj|]; [|discriminate]. simpl in Hok1, Hhere.
    rewrite (allocate_exact DEBUG Capacity buffer_base T' obj a Hplaced Hu Hok1)
      in Hhere. cbv zeta in Hhere.
    destruct Hok1 as (Hal & Hsz & _).
    pose proof (spec_padding_range (alignof T') (buffer_base + m_used a) Hal).
    pose proof (spec_padding_aligns (alignof T') (buffer_base + m_used a) Hal) as Hpa.
    destruct (Capacity <? _) eqn:Hchk; [discriminate|].
    apply Z.ltb_ge in Hchk. injection Hhere as -> ->.
    rewrite Z.add_assoc. destruct Hu. split; [exact Hpa | lia].
  - exact (IH _ Hu' Hok Hlater).
Qed.

(** ** A failure stays a failure *)

(** The first aligned address at or after the cursor moves forward with the
    cursor. *)
Lemma aligned_cursor_monotone (alignment used used' : Z) :
  0 < alignment -> used <= used' ->
  used + spec_padding alignment (buffer_base + used) <=
  used' + spec_padding alignment (buffer_base + used').
Proof.
  intros Hal Hle.
  pose proof (spec_padding_range alignment (buffer_base + used') Hal) as Hr.
  pose proof (spec_padding_aligns alignment (buffer_base + used') Hal) as Ha.
  pose proof (spec_padding_minimal alignment (buffer_base + used)
                (used' + spec_padding alignment (buffer_base + used') - used)
                Hal ltac:(lia)) as Hmin.
  replace (buffer_base + used +
           (used' + spec_padding alignment (buffer_base + used') - used))
    with (buffer_base + used' + spec_padding alignment (buffer_base + used'))
    in Hmin by lia.
  specialize (Hmin Ha). lia.
Qed.

(** X7 (a failure lasts until the reset).  When [allocate<T>] fails in some
    state, it fails again after any further [allocate] calls, successful or
    not: within a generation only [reset] makes room. *)
Theorem failure_persists :
  forall (T : TypeInfo) (obj obj' : list Byte.byte) (a : Arena) (cs : list Call),
    in_address_space Capacity buffer_base ->
    used_ok Capacity a ->
    type_ok Capacity T ->
    Forall (call_ok Capacity) cs -> Forall is_allocate cs ->
    (allocate T obj a).1 = None ->
    allocate T obj' (run cs a).2 = (None, (run cs a).2).
Proof.
  intros T obj obj' a cs Hplaced Hu HT Hok Hal Hfail.
  assert (Hc : 0 <= Capacity) by (destruct Hu; lia).
  pose proof (run_used_ok DEBUG Capacity buffer_base cs a Hc Hu) as Hu'.
  pose proof (run_monotone DEBUG Capacity buffer_base cs a Hc Hu Hok Hal) as Hmono.
  rewrite (allocate_exact DEBUG Capacity buffer_base T obj a Hplaced Hu HT) in Hfail.
  rewrite (allocate_exact DEBUG Capacity buffer_base T obj' _ Hplaced Hu' HT).
  cbv zeta in *.
  pose proof (aligned_cursor_monotone (alignof T) (m_used a) (m_used (run cs a).2)
                (proj1 HT) Hmono) as Hcur.
  destruct (Capacity <? m_used a + _ + _) eqn:Hchk in Hfail; [|discriminate].
  apply Z.ltb_lt in Hchk.
  destruct (Capacity <? _) eqn:Hchk'; [reflexivity|].
  apply Z.ltb_ge in Hchk'. lia.
Qed.

(** ** Bytes handed out *)

Lemma total_len_app (rs1 rs2 : list region) :
  total_len (rs1 ++ rs2) = total_len rs1 + total_len rs2.
Proof.
  unfold total_len. induction rs1 as [|r rs1 IH]; simpl; [reflexivity|].
  rewrite IH. lia.
Qed.

Lemma run_total_len (cs : list Call) (a : Arena) (live : list region) :
  in_address_space Capacity buffer_base ->
  0 <= Capacity ->
  used_ok Capacity a ->
  Forall (call_ok Capacity) cs ->
  total_len live <= m_used a ->
  total_len (generation buffer_base (run cs a).1 live) <= m_used (run cs a).2.
Proof.
  intros Hplaced Hc. revert a live.
  induction cs as [|c cs IH]; intros a live Hu Hok Hsum; [exact Hsum|].
  apply Forall_cons in Hok as [Hok1 Hok].
  rewrite run_cons. cbn [fst snd].
  pose proof (call_used_ok DEBUG Capacity buffer_base c a Hc Hu) as Hu'.
  destruct c as [T obj|].
  - simpl in Hok1. cbn [call] in *.
    rewrite (allocate_exact DEBUG Capacity buffer_base T obj a Hplaced Hu Hok1) in *.
    cbv zeta in *. destruct Hok1 as (Hal & Hsz & _).
    pose proof (spec_padding_range (alignof T) (buffer_base + m_used a) Hal).
    destruct (Capacity <? _); cbn [fst snd generation] in *.
    + now apply IH.
    + apply IH; [exact Hu' | exact Hok |].
      rewrite total_len_app. cbn [m_used]. unfold total_len at 2. simpl. lia.
  - cbn [call fst snd generation] in *.
    apply IH; [exact Hu' | exact Hok |]. simpl. reflexivity.
Qed.

(** X8 (no more bytes than the capacity).  After any sequence of calls on a
    fresh arena the sizes of the objects of the current generation add up to
    at most [m_used], hence to at most [Capacity]. *)
Theorem live_bytes_within_capacity :
  forall (mem : list Byte.byte) (cs : list Call),
    in_address_space Capacity buffer_base ->
    0 <= Capacity ->
    Forall (call_ok Capacity) cs ->
    total_len (generation buffer_base (run cs (Arena_new mem)).1 []) <=
      m_used (run cs (Arena_new mem)).2 <= Capacity.
Proof.
  intros mem cs Hplaced Hc Hok.
  pose proof (Arena_new_used_ok Capacity mem Hc) as Hu.
  split.
  - apply run_total_len; try assumption. reflexivity.
  - apply (run_used_ok DEBUG Capacity buffer_base cs _ Hc Hu).
Qed.

(** ** The start of the buffer *)

(** X9 (the first object sits at the start of the buffer).  In an arena
    with [m_used = 0], fresh or just reset, whose buffer is aligned as
    [max_align_t], [allocate<T>] for a type no more aligned than
    [max_align_t] and no larger than the capacity returns the address of the
    buffer itself, with no padding, and sets [m_used] to [sizeof(T)]. *)
Theorem first_allocation_at_base :
  forall (T : TypeInfo) (obj : list Byte.byte) (a : Arena),
    in_address_space Capacity buffer_base ->
    buffer_base mod MAX_ALIGN = 0 ->
    type_ok Capacity T ->
    is_pow2 (alignof T) ->
    alignof T <= MAX_ALIGN ->
    sizeof T <= Capacity ->
    m_used a = 0 ->
    (allocate T obj a).1 = Some buffer_base /\
    m_used (allocate T obj a).2 = sizeof T.
Proof.
  intros T obj a Hplaced Hbase HT Hpow Hmax Hfit H0.
  destruct HT as (Hal & Hsz & Hwrap).
  assert (Hu : used_ok Capacity a) by (unfold used_ok; lia).
  apply pow2_divides_max_align in Hpow; [|exact Hmax].
  apply Z.mod_divide in Hbase; [|unfold MAX_ALIGN; lia].
  assert (Hdiv : (alignof T | buffer_base)) by (etransitivity; eassumption).
  assert (Hpad : spec_padding (alignof T) (buffer_base + m_used a) = 0).
  { rewrite H0, Z.add_0_r. apply spec_padding_zero; [lia|].
    apply Z.mod_divide; [lia | exact Hdiv]. }
  destruct (allocate_fits DEBUG Capacity buffer_base T obj a 0 Hplaced Hu
              (conj Hal (conj Hsz Hwrap)) Hpad) as [Hr Hused]; [lia|].
  rewrite Hr, Hused, H0. split; [f_equal; lia | lia].
Qed.

(** ** Objects of one type *)

Lemma run_same_type (T : TypeInfo) (objs : list (list Byte.byte)) (a : Arena) (k : Z) :
  in_address_space Capacity buffer_base ->
  type_ok Capacity T ->
  (alignof T | buffer_base) -> (alignof T | sizeof T) ->
  m_used a = k * sizeof T ->
  0 <= k <= Capacity / sizeof T ->
  (forall i : nat,
      (i < length objs)%nat ->
      (run (map (Allocate T) objs) a).1 !! i =
        Some (if k + Z.of_nat i <? Capacity / sizeof T
              then Allocated T (buffer_base + (k + Z.of_nat i) * sizeof T)
              else Failed T)) /\
  m_used (run (map (Allocate T) objs) a).2 =
    Z.min (k + Z.of_nat (length objs)) (Capacity / sizeof T) * sizeof T.
Proof.
  intros Hplaced HT Hbase Hsize. revert a k.
  pose proof HT as (Hal & Hsz & _).
  pose proof (Z.mul_div_le Capacity (sizeof T) Hsz) as Hq1.
  pose proof (Z.mul_succ_div_gt Capacity (sizeof T) Hsz) as Hq2.
  induction objs as [|obj objs IH]; intros a k Hused Hk.
  { split; [intros i Hi; simpl in Hi; lia|]. simpl. rewrite Hused. f_equal. lia. }
  assert (Hu : used_ok Capacity a) by (unfold used_ok; nia).
  assert (Hpad : spec_padding (alignof T) (buffer_base + m_used a) = 0).
  { apply spec_padding_zero; [exact Hal|]. apply Z.mod_divide; [lia|].
    rewrite Hused. apply Z.divide_add_r; [exact Hbase|].
    now apply Z.divide_mul_r. }
  change (map (Allocate T) (obj :: objs))
    with (Allocate T obj :: map (Allocate T) objs).
  rewrite run_cons. cbn [fst snd call].
  rewrite (allocate_exact DEBUG Capacity buffer_base T obj a Hplaced Hu HT).
  cbv zeta. rewrite Hpad, Hused.
  destruct (Capacity <? k * sizeof T + 0 + sizeof T) eqn:Hchk.
  - apply Z.ltb_lt in Hchk. assert (Hkq : k = Capacity / sizeof T) by nia.
    destruct (IH a k Hused Hk) as [IHev IHused]. cbn [fst snd]. split.
    + intros [|j] Hj; simpl in Hj.
      * destruct (k + Z.of_nat 0 <? _) eqn:E; [apply Z.ltb_lt in E; lia|].
        reflexivity.
      * change ((?e :: ?es) !! S j) with (es !! j). rewrite IHev by lia.
        destruct (k + Z.of_nat j <? _) eqn:E; [apply Z.ltb_lt in E; lia|].
        destruct (k + Z.of_nat (S j) <? _) eqn:E'; [apply Z.ltb_lt in E'; lia|].
        reflexivity.
    + rewrite IHused. f_equal. cbn [length]. lia.
  - apply Z.ltb_ge in Hchk. assert (Hkq : k + 1 <= Capacity / sizeof T) by nia.
    cbn [fst snd].
    match goal with
    | |- context [run _ ?a'] => destruct (IH a' (k + 1)) as [IHev IHused]
    end.
    { simpl. lia. }
    { lia. }
    split.
    + intros [|j] Hj; simpl in Hj.
      * destruct (k + Z.of_nat 0 <? _) eqn:E; [|apply Z.ltb_ge in E; lia].
        change ((?e :: ?es) !! 0%nat) with (Some e).
        do 3 f_equal. lia.
      * change ((?e :: ?es) !! S j) with (es !! j). rewrite IHev by lia.
        replace (k + 1 + Z.of_nat j) with (k + Z.of_nat (S j)) by lia.
        reflexivity.
    + rewrite IHused. f_equal. cbn [length]. lia.
Qed.

(** X10 (an arena of objects of one type).  When [sizeof(T)] is a multiple
    of [alignof(T)] and the buffer is aligned for [T], repeated
    [allocate<T>] calls on a fresh arena lay the objects out as an array:
    call [i] returns the address [buffer_base + i * sizeof(T)] as long as
    [i < Capacity / sizeof(T)] and [nullptr] from then on, so the arena holds
    exactly [Capacity / sizeof(T)] objects of the type and no byte is lost to
    padding. *)
Theorem same_type_packing :
  forall (T : TypeInfo) (objs : list (list Byte.byte)) (mem : list Byte.byte),
    in_address_space Capacity buffer_base ->
    0 <= Capacity ->
    type_ok Capacity T ->
    (alignof T | buffer_base) -> (alignof T | sizeof T) ->
    (forall i : nat,
        (i < length objs)%nat ->
        (run (map (Allocate T) objs) (Arena_new mem)).1 !! i =
          Some (if Z.of_nat i <? Capacity / sizeof T
                then Allocated T (buffer_base + Z.of_nat i * sizeof T)
                else Failed T)) /\
    m_used (run (map (Allocate T) objs) (Arena_new mem)).2 =
      Z.min (Z.of_nat (length objs)) (Capacity / sizeof T) * sizeof T.
Proof.
  intros T objs mem Hplaced Hc HT Hbase Hsize.
  destruct (run_same_type T objs (Arena_new mem) 0 Hplaced HT Hbase Hsize)
    as [Hev Hused].
  - reflexivity.
  - split; [lia|]. apply Z.div_pos; [exact Hc | apply HT].
  - split; [exact Hev | exact Hused].
Qed.

(** ** Objects are not overwritten *)

(** [allocate] writes at or after the cursor only. *)
Lemma allocate_keeps_below (T : TypeInfo) (obj : list Byte.byte) (a : Arena) (i : nat) :
  in_address_space Capacity buffer_base ->
  used_ok Capacity a ->
  type_ok Capacity T ->
  Z.of_nat i < m_used a ->
  m_buffer (allocate T obj a).2 !! i = m_buffer a !! i.
Proof.
  intros Hplaced Hu HT Hi.
  rewrite (allocate_exact DEBUG Capacity buffer_base T obj a Hplaced Hu HT).
  cbv zeta. destruct HT as (Hal & _).
  pose proof (spec_padding_range (alignof T) (buffer_base + m_used a) Hal).
  destruct (Capacity <? _); cbn [snd m_buffer]; [reflexivity|].
  apply list_lookup_inserts_lt. lia.
Qed.

Lemma run_keeps_below (cs : list Call) (a : Arena) (i : nat) :
  in_address_space Capacity buffer_base ->
  used_ok Capacity a ->
  Forall (call_ok Capacity) cs -> Forall is_allocate cs ->
  Z.of_nat i < m_used a ->
  m_buffer (run cs a).2 !! i = m_buffer a !! i.
Proof.
  intros Hplaced. revert a.
  induction cs as [|c cs IH]; intros a Hu Hok Hal Hi; [reflexivity|].
  apply Forall_cons in Hok as [Hok1 Hok]. apply Forall_cons in Hal as [Hal1 Hal].
  destruct c as [T obj|]; [|contradiction]. simpl in Hok1.
  assert (Hc : 0 <= Capacity) by (destruct Hu; lia).
  rewrite run_cons. cbn [fst snd].
  pose proof (call_used_ok DEBUG Capacity buffer_base (Allocate T obj) a Hc Hu) as Hu'.
  pose proof (call_monotone DEBUG Capacity buffer_base (Allocate T obj) a Hu Hok1 I)
    as Hmono.
  rewrite IH by first [assumption | lia].
  pose proof (allocate_keeps_below T obj a i Hplaced Hu Hok1 Hi) as Hkeep.
  simpl. now destruct (allocate T obj a) as [[p|] a'].
Qed.

(** X11 (objects stay intact).  An object constructed by a successful
    [allocate<T>] is read back unchanged from its address after any number of
    further [allocate] calls, successful or not: within a generation no
    allocation overwrites a byte of an earlier object. *)
Theorem objects_stay_intact :
  forall (T : TypeInfo) (obj : list Byte.byte) (a a1 : Arena) (p : Z)
         (cs : list Call),
    in_address_space Capacity buffer_base ->
    used_ok Capacity a ->
    length (m_buffer a) = Z.to_nat Capacity ->
    type_ok Capacity T ->
    length obj = Z.to_nat (sizeof T) ->
    allocate T obj a = (Some p, a1) ->
    Forall (call_ok Capacity) cs -> Forall is_allocate cs ->
    take (Z.to_nat (sizeof T))
         (drop (Z.to_nat (p - buffer_base)) (m_buffer (run cs a1).2)) = obj.
Proof.
  intros T obj a a1 p cs Hplaced Hu Hbuf HT Hobj Halloc Hok Hal.
  pose proof (allocate_used_ok DEBUG Capacity buffer_base T obj a Hu) as Hu1.
  rewrite Halloc in Hu1. cbn [snd] in Hu1.
  rewrite (allocate_exact DEBUG Capacity buffer_base T obj a Hplaced Hu HT) in Halloc.
  cbv zeta in Halloc. pose proof HT as (Halign & Hsz & _).
  pose proof (spec_padding_range (alignof T) (buffer_base + m_used a) Halign) as Hp.
  destruct (Capacity <? _) eqn:Hchk in Halloc; [discriminate|].
  apply Z.ltb_ge in Hchk. destruct Hu as [Hu0 _].
  injection Halloc as <- <-.
  set (off := m_used a + spec_padding (alignof T) (buffer_base + m_used a)) in *.
  replace (buffer_base + off - buffer_base) with off by lia.
  set (a1 := {| m_buffer := _ |}) in *.
  assert (Hlen : length (take (Z.to_nat (sizeof T)) obj) = Z.to_nat (sizeof T)).
  { rewrite length_take. lia. }
  assert (Hhere : take (Z.to_nat (sizeof T)) (drop (Z.to_nat off) (m_buffer a1)) = obj).
  { subst a1. cbn [m_buffer]. rewrite <- Hlen at 1. rewrite read_inserts.
    - apply take_ge. lia.
    - rewrite Hlen, Hbuf. lia. }
  rewrite <- Hhere. apply list_eq. intros j.
  destruct (decide (j < Z.to_nat (sizeof T))%nat) as [Hj|Hj].
  - rewrite !lookup_take_lt by lia. rewrite !lookup_drop.
    apply run_keeps_below; try assumption.
    subst a1. cbn [m_used]. lia.
  - now rewrite !lookup_take_ge by lia.
Qed.

(** ** Planning a sequence of allocations *)

(** A run of allocations without a failure ends with [m_used] at the
    cumulative padded size of its requests. *)
Lemma run_all_allocated_used (cs : list Call) (a : Arena) :
  in_address_space Capacity buffer_base ->
  used_ok Capacity a ->
  Forall (call_ok Capacity) cs -> Forall is_allocate cs ->
  Forall is_Allocated (run cs a).1 ->
  m_used (run cs a).2 =
    cumulative_padded_size buffer_base (m_used a) (flat_map requested cs).
Proof.
  intros Hplaced. revert a.
  induction cs as [|c cs IH]; intros a Hu Hok Hal Hall; [reflexivity|].
  apply Forall_cons in Hok as [Hok1 Hok]. apply Forall_cons in Hal as [Hal1 Hal].
  destruct c as [T obj|]; [|contradiction]. simpl in Hok1.
  rewrite run_cons in *. cbn [fst snd] in *.
  apply Forall_cons in Hall as [Hfirst Hall].
  pose proof (allocate_used_ok DEBUG Capacity buffer_base T obj a Hu) as Hu'.
  assert (Hstep : (call (Allocate T obj) a).2 = (allocate T obj a).2 /\
                  m_used (allocate T obj a).2 =
                    m_used a + spec_padding (alignof T) (buffer_base + m_used a)
                    + sizeof T).
  { revert Hfirst. simpl.
    rewrite (allocate_exact DEBUG Capacity buffer_base T obj a Hplaced Hu Hok1).
    cbv zeta. destruct (Capacity <? _); simpl; [contradiction|]. auto. }
  destruct Hstep as [Hstep Hused]. rewrite Hstep in *.
  rewrite (IH _ Hu' Hok Hal Hall), Hused. reflexivity.
Qed.

(** A run of allocations whose cumulative padded size is within the
    capacity has no failure. *)
Lemma run_fits (cs : list Call) (a : Arena) :
  in_address_space Capacity buffer_base ->
  used_ok Capacity a ->
  Forall (call_ok Capacity) cs -> Forall is_allocate cs ->
  cumulative_padded_size buffer_base (m_used a) (flat_map requested cs) <= Capacity ->
  Forall is_Allocated (run cs a).1.
Proof.
  intros Hplaced. revert a.
  induction cs as [|c cs IH]; intros a Hu Hok Hal Hsum; [constructor|].
  apply Forall_cons in Hok as [Hok1 Hok]. apply Forall_cons in Hal as [Hal1 Hal].
  destruct c as [T obj|]; [|contradiction]. simpl in Hok1.
  rewrite run_cons. cbn [fst snd].
  change (flat_map requested (Allocate T obj :: cs))
    with (T :: flat_map requested cs) in Hsum.
  cbn [cumulative_padded_size] in Hsum.
  pose proof (cumulative_padded_size_ge Capacity buffer_base
                (m_used a + spec_padding (alignof T) (buffer_base + m_used a)
                 + sizeof T) _ (requested_ok Capacity cs Hok)) as Hge.
  pose proof (allocate_used_ok DEBUG Capacity buffer_base T obj a Hu) as Hu'.
  destruct (allocate_fits DEBUG Capacity buffer_base T obj a _ Hplaced Hu Hok1
              eq_refl ltac:(lia)) as [Hr Hused].
  assert (Hcall : call (Allocate T obj) a =
                  (Allocated T (buffer_base + (m_used a +
                     spec_padding (alignof T) (buffer_base + m_used a))),
                   (allocate T obj a).2)).
  { simpl. destruct (allocate T obj a) as [r a']. simpl in Hr. now subst r. }
  rewrite Hcall. cbn [fst snd]. constructor; [exact I|].
  apply IH; [exact Hu' | exact Hok | exact Hal |]. now rewrite Hused.
Qed.

(** X12 (what fits).  A sequence of [allocate] calls, started in a state
    within the capacity, goes through without a failure exactly when the
    cumulative padded size of its requests, counted from the current
    [m_used], is at most [Capacity]; [m_used] then ends at that size. *)
Theorem run_succeeds_iff_fits :
  forall (cs : list Call) (a : Arena),
    in_address_space Capacity buffer_base ->
    used_ok Capacity a ->
    Forall (call_ok Capacity) cs -> Forall is_allocate cs ->
    (Forall is_Allocated (run cs a).1 <->
     cumulative_padded_size buffer_base (m_used a) (flat_map requested cs)
       <= Capacity) /\
    (Forall is_Allocated (run cs a).1 ->
     m_used (run cs a).2 =
       cumulative_padded_size buffer_base (m_used a) (flat_map requested cs)).
Proof.
  intros cs a Hplaced Hu Hok Hal.
  assert (Hc : 0 <= Capacity) by (destruct Hu; lia).
  split; [split|].
  - intros Hall.
    rewrite <- (run_all_allocated_used cs a Hplaced Hu Hok Hal Hall).
    apply (run_used_ok DEBUG Capacity buffer_base cs a Hc Hu).
  - now apply run_fits.
  - now apply run_all_allocated_used.
Qed.

(** In an order of descending alignment no request needs padding. *)
Lemma descending_alignment_no_padding (alignment used : Z) (Ts : list TypeInfo) :
  Forall (type_ok Capacity) Ts ->
  (alignment | buffer_base) -> (alignment | used) ->
  descending_alignment alignment Ts ->
  cumulative_padded_size buffer_base used Ts = used + total_size Ts.
Proof.
  revert alignment used.
  induction Ts as [|T Ts IH]; intros alignment used HTs Hbase Hused Hdesc.
  { unfold total_size. simpl. lia. }
  apply Forall_cons in HTs as [(Hal & _) HTs].
  destruct Hdesc as (Hdiv & Hsize & Hdesc).
  assert (Hb : (alignof T | buffer_base))
    by (apply (Z.divide_trans _ alignment); assumption).
  assert (Hu : (alignof T | used))
    by (apply (Z.divide_trans _ alignment); assumption).
  cbn [cumulative_padded_size].
  rewrite (spec_padding_zero (alignof T) (buffer_base + used)); [|exact Hal|].
  - rewrite (IH (alignof T)); try assumption.
    + unfold total_size. simpl. lia.
    + rewrite Z.add_0_r. now apply Z.divide_add_r.
  - apply Z.mod_divide; [lia|]. now apply Z.divide_add_r.
Qed.

(** X13 (descending alignment wastes nothing).  When the types of a sequence
    of [allocate] calls come in an order of descending alignment (each
    alignment divides the one before it and the type's own size) and the
    buffer and the current [m_used] are aligned for the first, no padding is
    inserted: the calls all succeed as soon as the plain sum of the sizes
    fits in what is left of the capacity, and [m_used] advances by exactly
    that sum. *)
Theorem descending_alignment_packs :
  forall (alignment : Z) (cs : list Call) (a : Arena),
    in_address_space Capacity buffer_base ->
    used_ok Capacity a ->
    Forall (call_ok Capacity) cs -> Forall is_allocate cs ->
    (alignment | buffer_base) -> (alignment | m_used a) ->
    descending_alignment alignment (flat_map requested cs) ->
    m_used a + total_size (flat_map requested cs) <= Capacity ->
    Forall is_Allocated (run cs a).1 /\
    m_used (run cs a).2 = m_used a + total_size (flat_map requested cs).
Proof.
  intros alignment cs a Hplaced Hu Hok Hal Hbase Hused Hdesc Hfit.
  pose proof (descending_alignment_no_padding alignment (m_used a) _
                (requested_ok Capacity cs Hok) Hbase Hused Hdesc) as Hsum.
  assert (Hall : Forall is_Allocated (run cs a).1).
  { apply run_fits; try assumption. rewrite Hsum. exact Hfit. }
  split; [exact Hall|].
  now rewrite (run_all_allocated_used cs a Hplaced Hu Hok Hal Hall).
Qed.

End Guarantees.

(** ** The further properties at work on concrete arenas *)

Ltac solve_divides := simpl; apply Z.mod_divide; [lia | reflexivity].

Lemma run_ignores_payload_witness :
  let cs1 := [Allocate int_info (zeros 4); Reset; Allocate double_info (zeros 8)] in
  let cs2 := [Allocate int_info [Byte.x2a; Byte.x00; Byte.x00; Byte.x00]; Reset;
              Allocate double_info (zeros 8)] in
  (run true 64 4096 cs1 (Arena_new (zeros 64))).1 =
    (run false 64 4096 cs2 (Arena_new (replicate 64 Byte.xff))).1.
Proof.
  intros cs1 cs2.
  apply (run_ignores_payload true false 64 4096 cs1 cs2).
  - repeat constructor.
  - reflexivity.
Defined.

Lemma ledger_logs_successes_witness :
  let cs := [Allocate int_info (zeros 4); Allocate char50_info (zeros 50);
             Allocate double_info (zeros 8); Allocate double_info (zeros 8)] in
  m_allocations (run true 64 4096 cs (Arena_new (zeros 64))).2 =
    [{| address := 4096; size := 4; type_name := "i" |};
     {| address := 4100; size := 50; type_name := "A50_c" |};
     {| address := 4152; size := 8; type_name := "d" |}].
Proof.
  intros cs.
  rewrite (ledger_logs_successes 64 4096 cs (Arena_new (zeros 64))).
  - reflexivity.
  - solve_calls_ok.
Defined.

Lemma padding_for_least_witness :
  0 <= padding_for 8 4100 < 8 /\ (4100 + padding_for 8 4100) mod 8 = 0.
Proof.
  destruct (padding_for_least 8 4100) as (Hrange & Haligned & _); [lia | lia|].
  split; assumption.
Defined.

Lemma allocate_room_witness :
  let a := (allocate true 64 4096 int_info (zeros 4) (Arena_new (zeros 64))).2 in
  is_Some (allocate true 64 4096 double_info (zeros 8) a).1.
Proof.
  intros a.
  destruct (allocate_room true 64 4096 double_info (zeros 8) a) as [Hroom _].
  - apply in_address_space_4096. lia.
  - change (0 <= 4 <= 64). lia.
  - unfold type_ok. simpl. lia.
  - apply Hroom. change (4 + (8 - 1) + 8 <= 64). lia.
Defined.

Lemma run_pointers_aligned_in_buffer_witness :
  4104 mod 8 = 0 /\ 4096 <= 4104 /\ 4104 + 8 <= 4096 + 64.
Proof.
  apply (run_pointers_aligned_in_buffer true 64 4096 scenario_calls
           (Arena_new (zeros 64)) double_info 4104).
  - apply in_address_space_4096. lia.
  - lia.
  - unfold used_ok. simpl. lia.
  - solve_calls_ok.
  - apply (list_elem_of_lookup_2 _ 1%nat). reflexivity.
Defined.

Lemma failure_persists_witness :
  let a := (run true 64 4096
              [Allocate int_info (zeros 4); Allocate double_info (zeros 8)]
              (Arena_new (zeros 64))).2 in
  let later := (run true 64 4096 [Allocate int_info (zeros 4)] a).2 in
  (allocate true 64 4096 char50_info (zeros 50) a).1 = None /\
  allocate true 64 4096 char50_info (zeros 50) later = (None, later).
Proof.
  intros a later. split; [reflexivity|].
  apply (failure_persists true 64 4096 char50_info (zeros 50) (zeros 50) a).
  - apply in_address_space_4096. lia.
  - change (0 <= 16 <= 64). lia.
  - unfold type_ok. simpl. lia.
  - solve_calls_ok.
  - solve_calls_ok.
  - reflexivity.
Defined.

Lemma live_bytes_within_capacity_witness :
  total_len (generation 4096
               (run true 64 4096 scenario_calls (Arena_new (zeros 64))).1 []) <=
  m_used (run true 64 4096 scenario_calls (Arena_new (zeros 64))).2 <= 64.
Proof.
  apply (live_bytes_within_capacity true 64 4096 (zeros 64) scenario_calls).
  - apply in_address_space_4096. lia.
  - lia.
  - solve_calls_ok.
Defined.

Lemma first_allocation_at_base_witness :
  let a := reset (run true 64 4096 scenario_calls (Arena_new (zeros 64))).2 in
  (allocate true 64 4096 double_info (zeros 8) a).1 = Some 4096 /\
  m_used (allocate true 64 4096 double_info (zeros 8) a).2 = 8.
Proof.
  intros a.
  apply (first_allocation_at_base true 64 4096 double_info (zeros 8) a).
  - apply in_address_space_4096. lia.
  - reflexivity.
  - unfold type_ok. simpl. lia.
  - exists 3. split; [lia | reflexivity].
  - unfold MAX_ALIGN. simpl. lia.
  - simpl. lia.
  - reflexivity.
Defined.

Lemma same_type_packing_witness :
  let objs := replicate 10 (zeros 8) in
  m_used (run true 64 4096 (map (Allocate double_info) objs)
            (Arena_new (zeros 64))).2 = Z.min 10 (64 / 8) * 8.
Proof.
  intros objs.
  destruct (same_type_packing true 64 4096 double_info objs (zeros 64))
    as [_ Hused].
  - apply in_address_space_4096. lia.
  - lia.
  - unfold type_ok. simpl. lia.
  - solve_divides.
  - solve_divides.
  - exact Hused.
Defined.

Lemma objects_stay_intact_witness :
  let obj := [Byte.x2a; Byte.x00; Byte.x00; Byte.x00] in
  let a1 := (allocate true 64 4096 int_info obj (Arena_new (zeros 64))).2 in
  let cs := [Allocate double_info (replicate 8 Byte.xff);
             Allocate char50_info (zeros 50)] in
  take 4 (drop 0 (m_buffer (run true 64 4096 cs a1).2)) = obj.
Proof.
  intros obj a1 cs.
  apply (objects_stay_intact true 64 4096 int_info obj (Arena_new (zeros 64))
           a1 4096 cs).
  - apply in_address_space_4096. lia.
  - unfold used_ok. simpl. lia.
  - reflexivity.
  - unfold type_ok. simpl. lia.
  - reflexivity.
  - reflexivity.
  - solve_calls_ok.
  - solve_calls_ok.
Defined.

Lemma run_succeeds_iff_fits_witness :
  let cs := [Allocate int_info (zeros 4); Allocate double_info (zeros 8)] in
  Forall is_Allocated (run true 64 4096 cs (Arena_new (zeros 64))).1.
Proof.
  intros cs.
  destruct (run_succeeds_iff_fits true 64 4096 cs (Arena_new (zeros 64)))
    as [[_ Hfits] _].
  - apply in_address_space_4096. lia.
  - unfold used_ok. simpl. lia.
  - solve_calls_ok.
  - solve_calls_ok.
  - apply Hfits. change (16 <= 64). lia.
Defined.

Lemma descending_alignment_packs_witness :
  let cs := [Allocate double_info (zeros 8); Allocate int_info (zeros 4);
             Allocate char_info (zeros 1)] in
  Forall is_Allocated (run true 64 4096 cs (Arena_new (zeros 64))).1 /\
  m_used (run true 64 4096 cs (Arena_new (zeros 64))).2 = 0 + (8 + (4 + (1 + 0))).
Proof.
  intros cs.
  apply (descending_alignment_packs true 64 4096 16 cs (Arena_new (zeros 64))).
  - apply in_address_space_4096. lia.
  - unfold used_ok. simpl. lia.
  - solve_calls_ok.
  - solve_calls_ok.
  - solve_divides.
  - solve_divides.
  - simpl. repeat split; solve_divides.
  - change (0 + 13 <= 64). lia.
Defined.
